(** * Slugs for Kubernetes object names and label values

    A shallow embedding of [kubespawner/slugs.py] and the properties of the
    slugs it generates.

    Python strings are sequences of Unicode code points; they are modelled as
    lists of integers.  The two library services the module calls,
    [str.encode("utf8")] and [hashlib.sha256], are modelled by their
    definitions (RFC 3629 and FIPS 180-4).  The Unicode character database,
    which [str.lower] and [re.IGNORECASE] consult for characters outside ASCII,
    is a parameter of the development: nothing is assumed about it. *)

From Stdlib Require Import String Ascii ZArith List Bool Lia.
Import ListNotations.
Local Open Scope Z_scope.

(** ** Python strings *)

Definition char := Z.
Definition str := list char.

(** [len(s)] *)
Definition len {A : Type} (s : list A) : Z := Z.of_nat (List.length s).

(** String literals of the source, as code point lists. *)
Definition str_of (s : string) : str :=
  map (fun a => Z.of_N (N_of_ascii a)) (list_ascii_of_string s).

Definition nilb {A : Type} (s : list A) : bool :=
  match s with [] => true | _ :: _ => false end.

(** [c in t] for a tuple [t] of one-character strings. *)
Definition mem (c : char) (t : list char) : bool := existsb (Z.eqb c) t.

(** [s.startswith(t)] and [s.endswith(t)] for a tuple [t] of one-character
    strings: the first (last) character of [s] is one of them. *)
Definition startswith (t : list char) (s : str) : bool :=
  match s with
  | [] => false
  | c :: _ => mem c t
  end.

Definition endswith (t : list char) (s : str) : bool :=
  match rev s with
  | [] => false
  | c :: _ => mem c t
  end.

(** [s[:n]], with Python's reading of a negative bound. *)
Definition slice_to {A : Type} (s : list A) (n : Z) : list A :=
  if n <? 0 then firstn (Z.to_nat (len s + n)) s else firstn (Z.to_nat n) s.

(** [s.lstrip(chars)] and [s.rstrip(chars)] *)
Fixpoint lstrip (chars : str) (s : str) : str :=
  match s with
  | [] => []
  | c :: t => if mem c chars then lstrip chars t else s
  end.

Fixpoint rstrip (chars : str) (s : str) : str :=
  match s with
  | [] => []
  | c :: t =>
      let r := rstrip chars t in
      if mem c chars && nilb r then [] else c :: r
  end.

(** [sub in s] *)
Fixpoint prefixb (p s : str) : bool :=
  match p, s with
  | [], _ => true
  | _ :: _, [] => false
  | a :: p', b :: s' => (a =? b) && prefixb p' s'
  end.

Fixpoint contains (sub s : str) : bool :=
  prefixb sub s ||
  match s with
  | [] => false
  | _ :: t => contains sub t
  end.

(** [sep.join(parts)] *)
Fixpoint join (sep : str) (parts : list str) : str :=
  match parts with
  | [] => []
  | [p] => p
  | p :: rest => p ++ sep ++ join sep rest
  end.

(** [string.ascii_lowercase], [string.ascii_letters], [string.digits] *)
Definition ascii_lowercase : str := str_of "abcdefghijklmnopqrstuvwxyz".
Definition ascii_uppercase : str := str_of "ABCDEFGHIJKLMNOPQRSTUVWXYZ".
Definition ascii_letters : str := ascii_lowercase ++ ascii_uppercase.
Definition digits : str := str_of "0123456789".

(** ** Exceptions *)

Inductive exn : Type :=
| ValueError          (* raised by the module's own [raise] statements *)
| UnicodeEncodeError  (* raised by [str.encode] *)
| IndexError.         (* raised by [names[0]] on an empty sequence *)

Inductive result (A : Type) : Type :=
| Ok (a : A)
| Raise (e : exn).
Arguments Ok {A} a.
Arguments Raise {A} e.

Definition bind {A B : Type} (r : result A) (f : A -> result B) : result B :=
  match r with
  | Ok a => f a
  | Raise e => Raise e
  end.

Notation "x <- r ;; k" := (bind r (fun x => k))
  (at level 61, r at next level, right associativity).

(** ** [str.encode("utf8")] *)

Module Utf8.

Definition is_surrogate (c : char) : bool := (0xD800 <=? c) && (c <=? 0xDFFF).

(** The characters UTF-8 can encode: the Unicode scalar values. *)
Definition encodable_char (c : char) : bool :=
  (0 <=? c) && (c <? 0x110000) && negb (is_surrogate c).

Definition cont (x : Z) : Z := 0x80 + x mod 64.

Definition encode_char (c : char) : result (list Z) :=
  if negb (encodable_char c) then Raise UnicodeEncodeError
  else if c <? 0x80 then Ok [c]
  else if c <? 0x800 then Ok [0xC0 + c / 64; cont c]
  else if c <? 0x10000 then Ok [0xE0 + c / 4096; cont (c / 64); cont c]
  else Ok [0xF0 + c / 262144; cont (c / 4096); cont (c / 64); cont c].

Fixpoint encode (s : str) : result (list Z) :=
  match s with
  | [] => Ok []
  | c :: t =>
      b <- encode_char c ;;
      r <- encode t ;;
      Ok (b ++ r)
  end.

Definition encodable (s : str) : bool := forallb encodable_char s.

End Utf8.

(** ** [hashlib.sha256] (FIPS 180-4) *)

Module Sha256.

Definition mask32 : Z := 2 ^ 32 - 1.
Definition add32 (x y : Z) : Z := (x + y) mod 2 ^ 32.
Definition rotr (n x : Z) : Z :=
  Z.lor (Z.shiftr x n) (Z.land (Z.shiftl x (32 - n)) mask32).
Definition shr (n x : Z) : Z := Z.shiftr x n.

Definition Ch (x y z : Z) : Z :=
  Z.lxor (Z.land x y) (Z.land (Z.lxor x mask32) z).
Definition Maj (x y z : Z) : Z :=
  Z.lxor (Z.lxor (Z.land x y) (Z.land x z)) (Z.land y z).
Definition Sum0 (x : Z) : Z := Z.lxor (Z.lxor (rotr 2 x) (rotr 13 x)) (rotr 22 x).
Definition Sum1 (x : Z) : Z := Z.lxor (Z.lxor (rotr 6 x) (rotr 11 x)) (rotr 25 x).
Definition sig0 (x : Z) : Z := Z.lxor (Z.lxor (rotr 7 x) (rotr 18 x)) (shr 3 x).
Definition sig1 (x : Z) : Z := Z.lxor (Z.lxor (rotr 17 x) (rotr 19 x)) (shr 10 x).

Definition primes : list Z :=
  [2; 3; 5; 7; 11; 13; 17; 19; 23; 29; 31; 37; 41; 43; 47; 53;
   59; 61; 67; 71; 73; 79; 83; 89; 97; 101; 103; 107; 109; 113; 127; 131;
   137; 139; 149; 151; 157; 163; 167; 173; 179; 181; 191; 193; 197; 199;
   211; 223; 227; 229; 233; 239; 241; 251; 257; 263; 269; 271; 277; 281;
   283; 293; 307; 311].

(** Integer cube root, one bit at a time. *)
Fixpoint cbrt_bits (n : Z) (bits : nat) (r : Z) : Z :=
  match bits with
  | O => r
  | S b =>
      let r' := r + 2 ^ Z.of_nat b in
      cbrt_bits n b (if r' * r' * r' <=? n then r' else r)
  end.

(** The round constants: the first 32 bits of the fractional parts of the
    cube roots of the first 64 primes. *)
Definition K : list Z :=
  Eval vm_compute in map (fun p => cbrt_bits (p * 2 ^ 96) 40 0 mod 2 ^ 32) primes.

Definition state : Type := Z * Z * Z * Z * Z * Z * Z * Z.

(** The initial hash value: the first 32 bits of the fractional parts of the
    square roots of the first 8 primes. *)
Definition H0 : state :=
  Eval vm_compute in
    let r p := Z.sqrt (p * 2 ^ 64) mod 2 ^ 32 in
    (r 2, r 3, r 5, r 7, r 11, r 13, r 17, r 19).

(** [n] bytes of [x], most significant first. *)
Fixpoint be_bytes (n : nat) (x : Z) : list Z :=
  match n with
  | O => []
  | S k => (x / 256 ^ Z.of_nat k) mod 256 :: be_bytes k x
  end.

Definition pad (msg : list Z) : list Z :=
  let l := len msg in
  msg ++ [0x80] ++ repeat 0 (Z.to_nat ((55 - l) mod 64)) ++ be_bytes 8 (8 * l).

Fixpoint chunks {A : Type} (size fuel : nat) (l : list A) : list (list A) :=
  match fuel with
  | O => []
  | S f =>
      match l with
      | [] => []
      | _ :: _ => firstn size l :: chunks size f (skipn size l)
      end
  end.

Definition word_of (bs : list Z) : Z := fold_left (fun acc b => acc * 256 + b) bs 0.

Fixpoint schedule (n : nat) (w : list Z) : list Z :=
  match n with
  | O => w
  | S k =>
      let back i := nth (List.length w - i) w 0 in
      schedule k (w ++ [add32 (add32 (sig1 (back 2%nat)) (back 7%nat))
                              (add32 (sig0 (back 15%nat)) (back 16%nat))])
  end.

Definition round (st : state) (kw : Z * Z) : state :=
  let '(a, b, c, d, e, f, g, h) := st in
  let t1 := add32 (add32 (add32 h (Sum1 e)) (add32 (Ch e f g) (fst kw))) (snd kw) in
  let t2 := add32 (Sum0 a) (Maj a b c) in
  (add32 t1 t2, a, b, c, add32 d t1, e, f, g).

Definition compress (st : state) (block : list Z) : state :=
  let w := schedule 48 (map word_of (chunks 4 16 block)) in
  let '(a, b, c, d, e, f, g, h) := fold_left round (combine K w) st in
  let '(a0, b0, c0, d0, e0, f0, g0, h0) := st in
  (add32 a0 a, add32 b0 b, add32 c0 c, add32 d0 d,
   add32 e0 e, add32 f0 f, add32 g0 g, add32 h0 h).

Definition digest (msg : list Z) : state :=
  let p := pad msg in
  fold_left compress (chunks 64 (List.length p) p) H0.

Definition hex_digit (n : Z) : char := if n <? 10 then 48 + n else 87 + n.

Definition word_hex (w : Z) : str :=
  map (fun i => hex_digit ((w / 16 ^ i) mod 16)) [7; 6; 5; 4; 3; 2; 1; 0].

Definition state_hex (st : state) : str :=
  let '(a, b, c, d, e, f, g, h) := st in
  flat_map word_hex [a; b; c; d; e; f; g; h].

(** A hash object is the bytes it has been fed so far. *)
Definition hasher : Type := list Z.
Definition new : hasher := [].
Definition update (h : hasher) (data : list Z) : hasher := h ++ data.
Definition hexdigest (h : hasher) : str := state_hex (digest h).

End Sha256.

(** ** Regular expressions

    Every anchored pattern of the module has the shape [^[...]+$]: one
    character class, repeated.  A class is kept as the list of ranges its
    source text denotes. *)

Inductive class_token : Type :=
| Lit (c : char)
| Dash.

(** Class text to tokens: a backslash quotes the next character; an unquoted
    hyphen is the range operator when it stands between two items. *)
Fixpoint class_tokens (quoted : bool) (s : str) : list class_token :=
  match s with
  | [] => []
  | c :: t =>
      if quoted then Lit c :: class_tokens false t
      else if c =? 92 then class_tokens true t
      else if c =? 45 then Dash :: class_tokens false t
      else Lit c :: class_tokens false t
  end.

Definition token_char (t : class_token) : char :=
  match t with
  | Lit c => c
  | Dash => 45
  end.

Fixpoint class_ranges (ts : list class_token) : list (char * char) :=
  match ts with
  | [] => []
  | a :: rest =>
      match rest with
      | Dash :: b :: rest' => (token_char a, token_char b) :: class_ranges rest'
      | _ => (token_char a, token_char a) :: class_ranges rest
      end
  end.

Record pattern : Type := {
  ranges : list (char * char);
  ignorecase : bool
}.

(** [re.compile('^[' + class_text + ']+$', flags)] *)
Definition compile_class_plus (class_text : string) (flag_ignorecase : bool) : pattern :=
  {| ranges := class_ranges (class_tokens false (str_of class_text));
     ignorecase := flag_ignorecase |}.

Definition in_ranges (rs : list (char * char)) (c : char) : bool :=
  existsb (fun r => (fst r <=? c) && (c <=? snd r)) rs.

Definition ascii_swapcase (c : char) : char :=
  if (65 <=? c) && (c <=? 90) then c + 32
  else if (97 <=? c) && (c <=? 122) then c - 32
  else c.

Definition _alphanum : list char := ascii_letters ++ digits.
Definition _alphanum_lower : list char := ascii_lowercase ++ digits.
Definition _lower_plus_hyphen : list char := _alphanum_lower ++ str_of "-".

Definition _object_pattern : pattern := compile_class_plus "a-z0-9\.-" false.
Definition _label_pattern : pattern := compile_class_plus "a-z0-9\.-_" true.

(** length of hash suffix *)
Definition _hash_length : Z := 8.

(** [_hyphen_plus_pattern.sub("-", s)], for the pattern [--+]: where two
    hyphens start a match the replacement is written, and the match runs on
    over every hyphen that follows. *)
Fixpoint hyphen_plus_sub (in_match : bool) (s : str) : str :=
  match s with
  | [] => []
  | c :: t =>
      if c =? 45 then
        if in_match then hyphen_plus_sub true t
        else
          match t with
          | [] => [c]
          | c' :: _ =>
              if c' =? 45 then 45 :: hyphen_plus_sub true t
              else c :: hyphen_plus_sub false t
          end
      else c :: hyphen_plus_sub false t
  end.

Definition isascii (s : str) : bool := forallb (fun c => (0 <=? c) && (c <? 128)) s.

Definition ascii_lower (c : char) : char :=
  if (65 <=? c) && (c <=? 90) then c + 32 else c.

(** [max_length or default] *)
Definition or_default (o : option Z) (d : Z) : Z :=
  match o with
  | None => d
  | Some m => if m =? 0 then d else m
  end.

Section Slugs.

(** The Unicode character database, as far as the module can see it:
    [unicode_lower s] is [s.lower()] for a string that is not pure ASCII, and
    [unicode_variants c] lists the other-case forms that case-insensitive
    matching tries for a character [c] outside ASCII. *)
Variable unicode_lower : str -> str.
Variable unicode_variants : char -> list char.

(** [s.lower()] *)
Definition lower (s : str) : str :=
  if isascii s then map ascii_lower s else unicode_lower s.

Definition case_variants (c : char) : list char :=
  if (0 <=? c) && (c <? 128) then [ascii_swapcase c] else unicode_variants c.

Definition class_match (p : pattern) (c : char) : bool :=
  in_ranges (ranges p) c ||
  (ignorecase p && existsb (in_ranges (ranges p)) (case_variants c)).

(** [p.match(s)] for [^[...]+$]: class characters, at least one, up to the end
    of the string or up to a newline that ends it. *)
Fixpoint match_from (p : pattern) (seen : bool) (s : str) : bool :=
  match s with
  | [] => seen
  | c :: t =>
      (seen && (c =? 10) && nilb t) || (class_match p c && match_from p true t)
  end.

Definition pattern_match (p : pattern) (s : str) : bool := match_from p false s.

Definition _is_valid_general (s : str) (starts_with ends_with : option (list char))
    (pattern : option pattern) (min_length max_length : option Z) : bool :=
  if match min_length with
     | Some m => negb (m =? 0) && (len s <? m)
     | None => false
     end then false
  else if match max_length with
          | Some m => negb (m =? 0) && (m <? len s)
          | None => false
          end then false
  else if match starts_with with
          | Some t => negb (nilb t) && negb (startswith t s)
          | None => false
          end then false
  else if match ends_with with
          | Some t => negb (nilb t) && negb (endswith t s)
          | None => false
          end then false
  else if match pattern with
          | Some p => negb (pattern_match p s)
          | None => false
          end then false
  else true.

Definition is_valid_object_name (s : str) : bool :=
  _is_valid_general s (Some _alphanum_lower) (Some _alphanum_lower)
    (Some _object_pattern) (Some 1) (Some 255).

Definition is_valid_label (s : str) : bool :=
  if nilb s then true
  else _is_valid_general s (Some _alphanum) (Some _alphanum)
         (Some _label_pattern) None (Some 63).

Definition is_valid_default (s : str) : bool :=
  _is_valid_general s (Some _alphanum_lower) (Some _alphanum_lower)
    (Some _object_pattern) (Some 1) (Some 63).

Definition _extract_safe_name (name : str) (max_length : Z) : str :=
  let safe_name := filter (fun c => mem c _lower_plus_hyphen) (lower name) in
  let safe_name := hyphen_plus_sub false (lstrip (str_of "-") safe_name) in
  let safe_name := rstrip (str_of "-") (slice_to safe_name max_length) in
  if nilb safe_name then str_of "x" else safe_name.

Definition strip_and_hash (name : str) (max_length : Z) : result str :=
  let name_length := max_length - (_hash_length + 3) in
  if name_length <? 1 then Raise ValueError
  else
    data <- Utf8.encode name ;;
    let name_hash := slice_to (Sha256.hexdigest (Sha256.update Sha256.new data)) _hash_length in
    let safe_name := _extract_safe_name name name_length in
    Ok (safe_name ++ str_of "---" ++ name_hash).

Definition safe_slug (name : str) (is_valid : str -> bool) (max_length : option Z)
    : result str :=
  if contains (str_of "--") name then strip_and_hash name (or_default max_length 32)
  else if is_valid name &&
          match max_length with
          | None => true
          | Some m => len name <=? m
          end
       then Ok name
  else strip_and_hash name (or_default max_length 32).

(** The loop that feeds the remaining components to the hash object. *)
Fixpoint update_rest (hasher : Sha256.hasher) (names : list str) : result Sha256.hasher :=
  match names with
  | [] => Ok hasher
  | name :: rest =>
      let hasher := Sha256.update hasher [0xFF] in
      data <- Utf8.encode name ;;
      update_rest (Sha256.update hasher data) rest
  end.

Definition multi_slug (names : list str) (max_length : Z) : result str :=
  match names with
  | [] => Raise IndexError
  | first :: rest =>
      data <- Utf8.encode first ;;
      hasher <- update_rest (Sha256.update Sha256.new data) rest ;;
      let hash := slice_to (Sha256.hexdigest hasher) _hash_length in
      let available_chars := max_length - (_hash_length + 1) in
      let per_name := available_chars / len names in
      let name_max_length := per_name - 2 in
      if name_max_length <? 2 then Raise ValueError
      else
        let name_slugs := map (fun name => _extract_safe_name name name_max_length) names in
        Ok (join (str_of "--") name_slugs ++ str_of "---" ++ hash)
  end.

End Slugs.

(** The defaults of the signatures. *)
Definition strip_and_hash_default_max_length : Z := 32.
Definition multi_slug_default_max_length : Z := 48.

(** ** Vocabulary of the properties *)

(** [[a-z0-9-]] *)
Definition slug_char (c : char) : bool :=
  ((97 <=? c) && (c <=? 122)) || ((48 <=? c) && (c <=? 57)) || (c =? 45).

(** [[0-9a-f]] *)
Definition hex_char (c : char) : bool :=
  ((48 <=? c) && (c <=? 57)) || ((97 <=? c) && (c <=? 102)).

(** [[a-z0-9]] and [[a-zA-Z0-9]] *)
Definition alnum_lower_char (c : char) : bool :=
  ((97 <=? c) && (c <=? 122)) || ((48 <=? c) && (c <=? 57)).

Definition alnum_char (c : char) : bool :=
  alnum_lower_char c || ((65 <=? c) && (c <=? 90)).

(** What [_extract_safe_name] promises of its result: not empty, only
    lowercase letters, digits and hyphens, no hyphen at either end, no two
    hyphens in a row. *)
Definition safe_name (e : str) : Prop :=
  e <> [] /\
  forallb slug_char e = true /\
  startswith (str_of "-") e = false /\
  endswith (str_of "-") e = false /\
  contains (str_of "--") e = false.

(** The number of positions of [s] at which [sub] occurs. *)
Fixpoint count_sub (sub s : str) : nat :=
  ((if prefixb sub s then 1 else 0) +
   match s with
   | [] => 0
   | _ :: t => count_sub sub t
   end)%nat.

(** The lengths of the maximal runs of hyphens of [s], left to right; [k]
    hyphens are pending. *)
Fixpoint hyphen_runs_from (k : nat) (s : str) : list nat :=
  match s with
  | [] => if Nat.eqb k 0 then [] else [k]
  | c :: t =>
      if c =? 45 then hyphen_runs_from (S k) t
      else (if Nat.eqb k 0 then [] else [k]) ++ hyphen_runs_from 0 t
  end.

Definition hyphen_runs (s : str) : list nat := hyphen_runs_from 0 s.

Definition long_runs (s : str) : list nat :=
  filter (fun k => Nat.leb 2 k) (hyphen_runs s).

(** The part of [s] before its first pair of hyphens. *)
Definition head_hyphen (s : str) : bool :=
  match s with
  | [] => false
  | c :: _ => c =? 45
  end.

Fixpoint before_pair (s : str) : str :=
  match s with
  | [] => []
  | c :: t => if (c =? 45) && head_hyphen t then [] else c :: before_pair t
  end.

(** The extraction budget of [multi_slug] for each component. *)
Definition name_budget (names : list str) (max_length : Z) : Z :=
  (max_length - 9) / len names - 2.

(** The three rule sets the module provides, each with its predicate and the
    maximum length it allows. *)
Inductive rule_set : Type :=
| ObjectNameRules
| LabelRules
| DefaultRules.

Definition predicate_of (unicode_variants : char -> list char) (R : rule_set)
    : str -> bool :=
  match R with
  | ObjectNameRules => is_valid_object_name unicode_variants
  | LabelRules => is_valid_label unicode_variants
  | DefaultRules => is_valid_default unicode_variants
  end.

Definition rule_max (R : rule_set) : Z :=
  match R with
  | ObjectNameRules => 255
  | LabelRules => 63
  | DefaultRules => 63
  end.

(** [[a-z0-9.-]], the class of the object-name pattern, and the ASCII part of
    the class of the label pattern as it is written. *)
Definition object_char (c : char) : bool := slug_char c || (c =? 46).

Definition label_char_ascii (c : char) : bool :=
  alnum_char c || ((46 <=? c) && (c <=? 95)).

(** The first (last) character of [s] exists and satisfies [f]. *)
Definition first_char_in (f : char -> bool) (s : str) : bool :=
  match s with
  | [] => false
  | c :: _ => f c
  end.

Definition last_char_in (f : char -> bool) (s : str) : bool :=
  match rev s with
  | [] => false
  | c :: _ => f c
  end.

(** The bytes [multi_slug] feeds to its hash object: the first component,
    then [0xFF] and the next component, for each of the others. *)
Definition hash_input (names : list str) : result (list Z) :=
  match names with
  | [] => Raise IndexError
  | first :: rest =>
      data <- Utf8.encode first ;;
      update_rest (Sha256.update Sha256.new data) rest
  end.

(** The condition under which [safe_slug] returns the name as it is. *)
Definition passes_through (name : str) (is_valid : str -> bool)
    (max_length : option Z) : bool :=
  negb (contains (str_of "--") name) && is_valid name &&
  match max_length with
  | None => true
  | Some m => len name <=? m
  end.

(** What follows the first component and its two hyphens. *)
Definition after_first (rest : list str) (h : str) : str :=
  match rest with
  | [] => str_of "-" ++ h
  | _ :: _ => join (str_of "--") rest ++ str_of "---" ++ h
  end.

(** Nothing, or something that starts with the delimiter byte. *)
Definition delimited (t : list Z) : Prop := t = [] \/ exists t0, t = 0xFF :: t0.

(** A stand-in for the character database where a statement is run on ASCII
    input, which never reaches it. *)
Definition no_unicode_lower : str -> str := fun s => s.
Definition no_unicode_variants : char -> list char := fun _ => [].

(** * Properties *)

(** ** The library models against reference vectors *)

Example sha256_abc :
  Sha256.hexdigest (str_of "abc") =
  str_of "ba7816bf8f01cfea414140de5dae2223b00361a396177a9cb410ff61f20015ad".
Proof. vm_compute. reflexivity. Qed.

Example sha256_empty :
  Sha256.hexdigest [] =
  str_of "e3b0c44298fc1c149afbf4c8996fb92427ae41e4649b934ca495991b7852b855".
Proof. vm_compute. reflexivity. Qed.

Example sha256_two_blocks :
  Sha256.hexdigest (str_of "abcdbcdecdefdefgefghfghighijhijkijkljklmklmnlmnomnopnopq") =
  str_of "248d6a61d20638b8e5c026930c3e6039a33ce45964ff2167f6ecedd419db06c1".
Proof. vm_compute. reflexivity. Qed.

Example utf8_vectors :
  Utf8.encode [0x41; 0xE9; 0x20AC; 0x1F600] =
    Ok [0x41; 0xC3; 0xA9; 0xE2; 0x82; 0xAC; 0xF0; 0x9F; 0x98; 0x80] /\
  Utf8.encode [0x61; 0xD800] = Raise UnicodeEncodeError.
Proof. split; reflexivity. Qed.

(** ** The model against the vectors of the specification *)

Example strip_and_hash_vectors (unicode_lower : str -> str) :
  strip_and_hash unicode_lower (str_of "a") 16 = Ok (str_of "a---ca978112") /\
  strip_and_hash unicode_lower [] 16 = Ok (str_of "x---e3b0c442") /\
  strip_and_hash unicode_lower (str_of "a") 11 = Raise ValueError.
Proof. repeat split; vm_compute; reflexivity. Qed.

Example is_valid_vectors (unicode_variants : char -> list char) :
  is_valid_object_name unicode_variants (str_of "my-app") = true /\
  is_valid_object_name unicode_variants (str_of "-bad") = false /\
  is_valid_object_name unicode_variants (str_of "UPPER") = false /\
  is_valid_label unicode_variants [] = true.
Proof. repeat split. Qed.

(** The delimiter byte keeps component boundaries apart. *)
Example multi_slug_boundary (unicode_lower : str -> str) :
  multi_slug unicode_lower [str_of "ab"; str_of "c"] 48 = Ok (str_of "ab--c---3239f095") /\
  multi_slug unicode_lower [str_of "a"; str_of "bc"] 48 = Ok (str_of "a--bc---9dbd772b").
Proof. split; vm_compute; reflexivity. Qed.

(** The pattern's [$] also matches before a final newline; the end-character
    condition is what rejects such a name. *)
Example newline_at_end (unicode_variants : char -> list char) :
  pattern_match unicode_variants _object_pattern [97; 98; 10] = true /\
  is_valid_default unicode_variants [97; 98; 10] = false.
Proof. split; reflexivity. Qed.

(** [re.sub] on runs of hyphens. *)
Example hyphen_plus_sub_vector :
  hyphen_plus_sub false (str_of "a---b--c-d----") = str_of "a-b-c-d-".
Proof. reflexivity. Qed.

(** ** Characters and tuples *)

Lemma mem_In (c : char) (t : list char) : mem c t = true <-> In c t.
Proof.
  unfold mem. rewrite existsb_exists. split.
  - intros [x [Hin Heq]]. apply Z.eqb_eq in Heq. now subst.
  - intros Hin. exists c. split; [assumption | apply Z.eqb_refl].
Qed.

(** A tuple of ASCII characters is decided by its table over ASCII. *)
Lemma mem_by_table (t : list char) (f : char -> bool) :
  forallb (fun x => (0 <=? x) && (x <? 128)) t = true ->
  forallb (fun k => Bool.eqb (mem (Z.of_nat k) t) (f (Z.of_nat k))) (seq 0 128) = true ->
  (forall c, f c = true -> 0 <= c < 128) ->
  forall c, mem c t = f c.
Proof.
  intros Hascii Htable Hf c.
  destruct (Z_lt_dec c 0) as [Hneg | Hnn]; [| destruct (Z_lt_dec c 128) as [Hlt | Hge]].
  - destruct (mem c t) eqn:Hm.
    + apply mem_In in Hm. rewrite forallb_forall in Hascii.
      specialize (Hascii c Hm). lia.
    + destruct (f c) eqn:Hfc; [apply Hf in Hfc; lia | reflexivity].
  - rewrite forallb_forall in Htable.
    specialize (Htable (Z.to_nat c)).
    rewrite Z2Nat.id in Htable by lia.
    apply eqb_prop, Htable, in_seq. lia.
  - destruct (mem c t) eqn:Hm.
    + apply mem_In in Hm. rewrite forallb_forall in Hascii.
      specialize (Hascii c Hm). lia.
    + destruct (f c) eqn:Hfc; [apply Hf in Hfc; lia | reflexivity].
Qed.

Lemma mem_lower_plus_hyphen (c : char) : mem c _lower_plus_hyphen = slug_char c.
Proof.
  apply mem_by_table; [reflexivity | vm_compute; reflexivity |].
  unfold slug_char. intros x H. lia.
Qed.

Lemma mem_alphanum_lower (c : char) : mem c _alphanum_lower = alnum_lower_char c.
Proof.
  apply mem_by_table; [reflexivity | vm_compute; reflexivity |].
  unfold alnum_lower_char. intros x H. lia.
Qed.

Lemma mem_alphanum (c : char) : mem c _alphanum = alnum_char c.
Proof.
  apply mem_by_table; [reflexivity | vm_compute; reflexivity |].
  unfold alnum_char, alnum_lower_char. intros x H. lia.
Qed.

Lemma mem_hyphen (c : char) : mem c (str_of "-") = (c =? 45).
Proof. unfold mem. simpl. apply orb_false_r. Qed.

Lemma startswith_hyphen (s : str) : startswith (str_of "-") s = head_hyphen s.
Proof. destruct s as [| c t]; [reflexivity | apply mem_hyphen]. Qed.

Lemma hex_is_slug (c : char) : hex_char c = true -> slug_char c = true.
Proof. unfold hex_char, slug_char. lia. Qed.

Lemma hex_is_alnum_lower (c : char) : hex_char c = true -> alnum_lower_char c = true.
Proof. unfold hex_char, alnum_lower_char. lia. Qed.

Lemma hex_not_hyphen (c : char) : hex_char c = true -> (c =? 45) = false.
Proof. unfold hex_char. lia. Qed.

(** ** Prefixes, suffixes and pairs of hyphens *)

Lemma endswith_cons (t : list char) (c : char) (s : str) :
  endswith t (c :: s) = if nilb s then mem c t else endswith t s.
Proof.
  unfold endswith. destruct s as [| d s']; [reflexivity |].
  simpl nilb. cbn iota. simpl rev.
  destruct (rev s' ++ [d]) as [| x l] eqn:E.
  - apply (f_equal (@List.length _)) in E. rewrite length_app in E. simpl in E. lia.
  - reflexivity.
Qed.

Lemma endswith_app (t : list char) (a b : str) :
  b <> [] -> endswith t (a ++ b) = endswith t b.
Proof.
  intros Hb. induction a as [| c a IH]; [reflexivity |].
  simpl app. rewrite endswith_cons, IH.
  destruct (a ++ b) eqn:E; [| reflexivity].
  apply app_eq_nil in E. tauto.
Qed.

Lemma contains_pair_cons (c : char) (s : str) :
  contains (str_of "--") (c :: s) =
  ((c =? 45) && head_hyphen s) || contains (str_of "--") s.
Proof.
  change (str_of "--") with [45; 45].
  cbn [contains prefixb]. f_equal.
  rewrite (Z.eqb_sym 45 c).
  destruct s as [| d s']; cbn [prefixb head_hyphen].
  - reflexivity.
  - now rewrite andb_true_r, (Z.eqb_sym 45 d).
Qed.

Lemma contains_pair_nil : contains (str_of "--") [] = false.
Proof. reflexivity. Qed.

Lemma head_hyphen_app (a b : str) :
  a <> [] -> head_hyphen (a ++ b) = head_hyphen a.
Proof. destruct a; [tauto | reflexivity]. Qed.

(** A string that is free of hyphen pairs stays so when a hyphen-free,
    pair-free string is put after it, provided the seam makes no pair. *)
Lemma contains_pair_app (a b : str) :
  contains (str_of "--") a = false ->
  contains (str_of "--") b = false ->
  endswith (str_of "-") a = false \/ head_hyphen b = false ->
  contains (str_of "--") (a ++ b) = false.
Proof.
  induction a as [| c a IH]; intros Ha Hb Hseam; [assumption |].
  simpl app. rewrite contains_pair_cons in *.
  apply orb_false_iff in Ha as [Hc Ha].
  apply orb_false_iff. split.
  - destruct a as [| d a'].
    + simpl app. rewrite endswith_cons, mem_hyphen in Hseam. simpl in Hseam.
      destruct Hseam as [-> | ->]; [reflexivity | apply andb_false_r].
    + exact Hc.
  - apply IH; [assumption | assumption |].
    destruct Hseam as [H | H]; [| now right].
    rewrite endswith_cons in H. destruct a; [left; reflexivity | left; exact H].
Qed.

Lemma contains_pair_prefix (p t : str) :
  contains (str_of "--") (p ++ t) = false -> contains (str_of "--") p = false.
Proof.
  induction p as [| c p IH]; intros H; [reflexivity |].
  simpl app in H. rewrite contains_pair_cons in *.
  apply orb_false_iff in H as [Hc Hp].
  rewrite (IH Hp), orb_false_r.
  destruct p as [| d p']; [apply andb_false_r | exact Hc].
Qed.

Lemma head_hyphen_prefix (p t : str) :
  head_hyphen (p ++ t) = false -> head_hyphen p = false.
Proof. destruct p; [reflexivity | exact (fun H => H)]. Qed.

Lemma forallb_prefix (f : char -> bool) (p t : str) :
  forallb f (p ++ t) = true -> forallb f p = true.
Proof. rewrite forallb_app. intros H. now apply andb_true_iff in H. Qed.

Lemma slice_to_prefix (s : str) (n : Z) : exists t, s = slice_to s n ++ t.
Proof.
  unfold slice_to. destruct (n <? 0).
  - exists (skipn (Z.to_nat (len s + n)) s). symmetry. apply firstn_skipn.
  - exists (skipn (Z.to_nat n) s). symmetry. apply firstn_skipn.
Qed.

Lemma slice_to_len (s : str) (n : Z) : 0 <= n -> len (slice_to s n) <= n.
Proof.
  intros Hn. unfold slice_to, len.
  destruct (n <? 0) eqn:E; [lia |].
  rewrite length_firstn. lia.
Qed.

Lemma slice_to_nonempty (s : str) (n : Z) :
  1 <= n -> s <> [] -> slice_to s n <> [].
Proof.
  intros Hn Hs. unfold slice_to.
  destruct (n <? 0) eqn:E; [lia |].
  destruct s as [| c t]; [tauto |].
  destruct (Z.to_nat n) eqn:En; [lia | discriminate].
Qed.

(** *** [lstrip] and [rstrip] *)

Lemma lstrip_head (s : str) : head_hyphen (lstrip (str_of "-") s) = false.
Proof.
  induction s as [| c t IH]; [reflexivity |].
  cbn [lstrip]. rewrite mem_hyphen.
  destruct (c =? 45) eqn:E; [exact IH | exact E].
Qed.

Lemma lstrip_forallb (f : char -> bool) (chars s : str) :
  forallb f s = true -> forallb f (lstrip chars s) = true.
Proof.
  induction s as [| c t IH]; intros H; [reflexivity |].
  cbn [lstrip]. destruct (mem c chars); [| exact H].
  apply IH. simpl in H. now apply andb_true_iff in H.
Qed.

Lemma rstrip_prefix (chars s : str) : exists t, s = rstrip chars s ++ t.
Proof.
  induction s as [| c s IH]; [now exists [] |].
  cbn [rstrip]. destruct (mem c chars && nilb (rstrip chars s)).
  - now exists (c :: s).
  - destruct IH as [t Ht]. exists t. simpl. now rewrite <- Ht.
Qed.

Lemma rstrip_endswith (chars s : str) : endswith chars (rstrip chars s) = false.
Proof.
  induction s as [| c s IH]; [reflexivity |].
  cbn [rstrip]. destruct (mem c chars && nilb (rstrip chars s)) eqn:E; [reflexivity |].
  rewrite endswith_cons.
  destruct (nilb (rstrip chars s)); [| exact IH].
  now rewrite andb_true_r in E.
Qed.

Lemma rstrip_nonempty (s : str) :
  s <> [] -> head_hyphen s = false -> rstrip (str_of "-") s <> [].
Proof.
  destruct s as [| c t]; [tauto |]. intros _ H.
  cbn [rstrip]. rewrite mem_hyphen. simpl in H. rewrite H. discriminate.
Qed.

Lemma prefix_len (p t : str) : len p <= len (p ++ t).
Proof. unfold len. rewrite length_app. lia. Qed.

(** *** Substitution of hyphen runs *)

Lemma hyphen_plus_sub_forallb (b : bool) (s : str) :
  forallb slug_char s = true -> forallb slug_char (hyphen_plus_sub b s) = true.
Proof.
  revert b. induction s as [| c t IH]; intros b H; [reflexivity |].
  simpl in H. apply andb_true_iff in H as [Hc Ht].
  cbn [hyphen_plus_sub].
  destruct (c =? 45) eqn:E.
  - destruct b; [now apply IH |].
    destruct t as [| c' t']; [simpl; now rewrite Hc |].
    destruct (c' =? 45).
    + cbn [forallb]. rewrite (IH true Ht). reflexivity.
    + cbn [forallb]. now rewrite Hc, (IH false Ht).
  - cbn [forallb]. now rewrite Hc, (IH false Ht).
Qed.

Lemma hyphen_plus_sub_head_true (s : str) :
  head_hyphen (hyphen_plus_sub true s) = false.
Proof.
  induction s as [| c t IH]; [reflexivity |].
  cbn [hyphen_plus_sub]. destruct (c =? 45) eqn:E; [exact IH | exact E].
Qed.

Lemma hyphen_plus_sub_head_false (s : str) :
  head_hyphen s = false -> head_hyphen (hyphen_plus_sub false s) = false.
Proof.
  destruct s as [| c t]; [reflexivity |]. simpl. intros H. now rewrite H.
Qed.

Lemma hyphen_plus_sub_no_pair (b : bool) (s : str) :
  contains (str_of "--") (hyphen_plus_sub b s) = false.
Proof.
  revert b. induction s as [| c t IH]; intros b; [reflexivity |].
  cbn [hyphen_plus_sub].
  destruct (c =? 45) eqn:E.
  - destruct b; [apply IH |].
    destruct t as [| c' t']; [rewrite contains_pair_cons; simpl; now rewrite andb_false_r |].
    destruct (c' =? 45) eqn:E'.
    + rewrite contains_pair_cons, hyphen_plus_sub_head_true, IH. reflexivity.
    + rewrite contains_pair_cons, IH, orb_false_r.
      cbn [hyphen_plus_sub]. rewrite E'. simpl. rewrite E'. apply andb_false_r.
  - rewrite contains_pair_cons, E, IH. reflexivity.
Qed.

Lemma hyphen_plus_sub_nonempty (s : str) :
  s <> [] -> head_hyphen s = false -> hyphen_plus_sub false s <> [].
Proof.
  destruct s as [| c t]; [tauto |]. simpl. intros _ H. rewrite H. discriminate.
Qed.

(** *** The filter of [_extract_safe_name] *)

Lemma filter_slug_chars (s : str) :
  forallb slug_char (filter (fun c => mem c _lower_plus_hyphen) s) = true.
Proof.
  apply forallb_forall. intros c Hc.
  apply filter_In in Hc as [_ Hc]. now rewrite mem_lower_plus_hyphen in Hc.
Qed.

(** ** The safe-name extractor *)

Section Extractor.

Variable unicode_lower : str -> str.

Lemma x_is_safe : safe_name (str_of "x").
Proof. repeat split; discriminate. Qed.

Lemma extract_safe_name_safe (name : str) (max_length : Z) :
  1 <= max_length ->
  safe_name (_extract_safe_name unicode_lower name max_length) /\
  len (_extract_safe_name unicode_lower name max_length) <= max_length.
Proof.
  intros Hn. unfold _extract_safe_name.
  set (s0 := filter _ (lower unicode_lower name)).
  set (s1 := lstrip (str_of "-") s0).
  set (s2 := hyphen_plus_sub false s1).
  set (s3 := slice_to s2 max_length).
  set (s4 := rstrip (str_of "-") s3).
  assert (F2 : forallb slug_char s2 = true)
    by apply hyphen_plus_sub_forallb, lstrip_forallb, filter_slug_chars.
  assert (H2 : head_hyphen s2 = false)
    by apply hyphen_plus_sub_head_false, lstrip_head.
  assert (P2 : contains (str_of "--") s2 = false)
    by apply hyphen_plus_sub_no_pair.
  destruct (slice_to_prefix s2 max_length) as [t3 E3]. fold s3 in E3.
  destruct (rstrip_prefix (str_of "-") s3) as [t4 E4]. fold s4 in E4.
  destruct (nilb s4) eqn:Enil.
  - split; [apply x_is_safe | change (len (str_of "x")) with 1; lia].
  - split.
    + rewrite E3, E4 in F2, H2, P2.
      repeat split.
      * intros Hnil. now rewrite Hnil in Enil.
      * eapply forallb_prefix, forallb_prefix, F2.
      * rewrite startswith_hyphen.
        eapply head_hyphen_prefix, head_hyphen_prefix, H2.
      * apply rstrip_endswith.
      * eapply contains_pair_prefix, contains_pair_prefix, P2.
    + pose proof (slice_to_len s2 max_length ltac:(lia)) as L3. fold s3 in L3.
      pose proof (prefix_len s4 t4) as L4. rewrite <- E4 in L4. lia.
Qed.

End Extractor.

(** ** The hash suffix *)

Lemma hex_digit_hex (n : Z) : 0 <= n < 16 -> hex_char (Sha256.hex_digit n) = true.
Proof. intros H. unfold hex_char, Sha256.hex_digit. destruct (n <? 10) eqn:E; lia. Qed.

Lemma word_hex_hex (w : Z) :
  List.length (Sha256.word_hex w) = 8%nat /\ forallb hex_char (Sha256.word_hex w) = true.
Proof.
  split; [reflexivity |].
  unfold Sha256.word_hex. cbn [map forallb].
  rewrite !hex_digit_hex by (apply Z.mod_pos_bound; lia). reflexivity.
Qed.

Lemma state_hex_prefix (st : Sha256.state) :
  exists w, slice_to (Sha256.state_hex st) _hash_length = Sha256.word_hex w.
Proof. destruct st as [[[[[[[a b] c] d] e] f] g] h]. exists a. reflexivity. Qed.

(** The suffix is eight hexadecimal digits, whatever was hashed. *)
Lemma hash_suffix (h : Sha256.hasher) :
  List.length (slice_to (Sha256.hexdigest h) _hash_length) = 8%nat /\
  forallb hex_char (slice_to (Sha256.hexdigest h) _hash_length) = true.
Proof.
  unfold Sha256.hexdigest.
  destruct (state_hex_prefix (Sha256.digest h)) as [w ->].
  apply word_hex_hex.
Qed.

(** ** Encoding *)

Lemma encode_char_cases (c : char) :
  (Utf8.encodable_char c = true /\ exists b, Utf8.encode_char c = Ok b) \/
  (Utf8.encodable_char c = false /\ Utf8.encode_char c = Raise UnicodeEncodeError).
Proof.
  unfold Utf8.encode_char. destruct (Utf8.encodable_char c); cbn [negb].
  - left. split; [reflexivity |].
    destruct (c <? 0x80); [eauto |].
    destruct (c <? 0x800); [eauto |].
    destruct (c <? 0x10000); eauto.
  - right. split; reflexivity.
Qed.

Lemma encode_cases (s : str) :
  (Utf8.encodable s = true /\ exists b, Utf8.encode s = Ok b) \/
  (Utf8.encodable s = false /\ Utf8.encode s = Raise UnicodeEncodeError).
Proof.
  induction s as [| c t IH].
  - left. split; [reflexivity | now exists []].
  - cbn [Utf8.encodable forallb Utf8.encode].
    destruct (encode_char_cases c) as [[Hc [b ->]] | [Hc ->]]; rewrite Hc.
    + fold (Utf8.encodable t).
      destruct IH as [[Ht [r ->]] | [Ht ->]]; rewrite Ht.
      * left. split; [reflexivity | now exists (b ++ r)].
      * right. split; reflexivity.
    + right. split; reflexivity.
Qed.

Section Hashing.

Variable unicode_lower : str -> str.

Lemma update_rest_cases (names : list str) (hasher : Sha256.hasher) :
  (forallb Utf8.encodable names = true /\ exists h, update_rest hasher names = Ok h) \/
  (forallb Utf8.encodable names = false /\
   update_rest hasher names = Raise UnicodeEncodeError).
Proof.
  revert hasher. induction names as [| name rest IH]; intros hasher.
  - left. split; [reflexivity | now exists hasher].
  - cbn [forallb update_rest].
    destruct (encode_cases name) as [[Hn [b ->]] | [Hn ->]]; rewrite Hn.
    + cbn [bind andb]. apply IH.
    + right. split; reflexivity.
Qed.

(** The three ways [strip_and_hash] can end. *)
Lemma strip_and_hash_cases (name : str) (max_length : Z) :
  (max_length < 12 /\ strip_and_hash unicode_lower name max_length = Raise ValueError) \/
  (12 <= max_length /\ Utf8.encodable name = false /\
   strip_and_hash unicode_lower name max_length = Raise UnicodeEncodeError) \/
  (12 <= max_length /\ Utf8.encodable name = true /\
   exists h, List.length h = 8%nat /\ forallb hex_char h = true /\
     strip_and_hash unicode_lower name max_length =
     Ok (_extract_safe_name unicode_lower name (max_length - 11) ++ str_of "---" ++ h)).
Proof.
  unfold strip_and_hash, _hash_length.
  replace (max_length - (8 + 3)) with (max_length - 11) by lia.
  destruct (max_length - 11 <? 1) eqn:E; [left; split; [lia | reflexivity] | right].
  destruct (encode_cases name) as [[Hn [b ->]] | [Hn ->]].
  - right. repeat split; [lia | assumption |]. cbn [bind].
    eexists. split; [| split; [| reflexivity]];
      apply (hash_suffix (Sha256.update Sha256.new b)).
  - left. repeat split; [lia | assumption].
Qed.

(** The ways [multi_slug] can end on a non-empty list. *)
Lemma multi_slug_cases (names : list str) (max_length : Z) :
  names <> [] ->
  (forallb Utf8.encodable names = false /\
   multi_slug unicode_lower names max_length = Raise UnicodeEncodeError) \/
  (forallb Utf8.encodable names = true /\ name_budget names max_length < 2 /\
   multi_slug unicode_lower names max_length = Raise ValueError) \/
  (forallb Utf8.encodable names = true /\ 2 <= name_budget names max_length /\
   exists h, List.length h = 8%nat /\ forallb hex_char h = true /\
     multi_slug unicode_lower names max_length =
     Ok (join (str_of "--")
           (map (fun name => _extract_safe_name unicode_lower name
                   (name_budget names max_length)) names)
         ++ str_of "---" ++ h)).
Proof.
  destruct names as [| first rest]; [tauto | intros _].
  unfold multi_slug, name_budget, _hash_length.
  replace (max_length - (8 + 1)) with (max_length - 9) by lia.
  cbn [forallb].
  destruct (encode_cases first) as [[Hn [b ->]] | [Hn ->]]; rewrite Hn;
    [| left; split; reflexivity].
  cbn [bind andb].
  destruct (update_rest_cases rest (Sha256.update Sha256.new b))
    as [[Hr [h ->]] | [Hr ->]]; rewrite Hr; [| left; split; reflexivity].
  cbn [bind]. right.
  destruct ((max_length - 9) / len (first :: rest) - 2 <? 2) eqn:E.
  - left. repeat split; [lia].
  - right. repeat split; [lia |].
    eexists. split; [| split; [| reflexivity]]; apply (hash_suffix h).
Qed.

End Hashing.

(** ** The shape [name---hash] *)

Lemma hex_no_triple (k : str) :
  forallb hex_char k = true -> count_sub (str_of "---") k = 0%nat.
Proof.
  induction k as [| c t IH]; intros H; [reflexivity |].
  simpl in H. apply andb_true_iff in H as [Hc Ht].
  change (str_of "---") with [45; 45; 45] in *.
  cbn [count_sub prefixb]. rewrite (IH Ht).
  rewrite Z.eqb_sym, (hex_not_hyphen c Hc). reflexivity.
Qed.

Lemma hex_no_runs (k : str) (n : nat) :
  forallb hex_char k = true ->
  hyphen_runs_from n k = if Nat.eqb n 0 then [] else [n].
Proof.
  revert n. induction k as [| c t IH]; intros n H; [reflexivity |].
  simpl in H. apply andb_true_iff in H as [Hc Ht].
  cbn [hyphen_runs_from]. rewrite (hex_not_hyphen c Hc), (IH 0%nat Ht).
  apply app_nil_r.
Qed.

Lemma head_hyphen_hex (k : str) : forallb hex_char k = true -> head_hyphen k = false.
Proof.
  destruct k as [| c t]; [reflexivity |]. simpl. intros H.
  apply andb_true_iff in H as [Hc _]. now apply hex_not_hyphen.
Qed.

Lemma tail_no_pair (c : char) (t : str) :
  contains (str_of "--") (c :: t) = false ->
  endswith (str_of "-") (c :: t) = false ->
  contains (str_of "--") t = false /\ endswith (str_of "-") t = false /\
  ((c =? 45) = true -> t <> [] /\ head_hyphen t = false).
Proof.
  rewrite contains_pair_cons, endswith_cons, mem_hyphen.
  intros Hp He. apply orb_false_iff in Hp as [Hc Hp].
  split; [assumption |]. split.
  - destruct t; [reflexivity | exact He].
  - intros E. rewrite E in *. split.
    + intros ->. discriminate He.
    + exact Hc.
Qed.

(** The delimiter occurs once in [e ++ "---" ++ h]. *)
Lemma shape_one_triple (e h : str) :
  contains (str_of "--") e = false ->
  endswith (str_of "-") e = false ->
  forallb hex_char h = true ->
  count_sub (str_of "---") (e ++ str_of "---" ++ h) = 1%nat.
Proof.
  intros Hp He Hh. induction e as [| c t IH].
  - change (str_of "---") with [45; 45; 45] in *.
    pose proof (hex_no_triple h Hh) as H0.
    change (str_of "---") with [45; 45; 45] in H0.
    pose proof (head_hyphen_hex h Hh) as Hd.
    destruct h as [| x k]; [reflexivity |].
    simpl in Hd. cbn [app count_sub prefixb] in *.
    rewrite (Z.eqb_sym 45 x), Hd in *. simpl. simpl in H0. now rewrite H0.
  - destruct (tail_no_pair c t Hp He) as [Hp' [He' Hc]].
    specialize (IH Hp' He').
    change (count_sub (str_of "---") ((c :: t) ++ str_of "---" ++ h))
      with ((if prefixb (str_of "---") (c :: t ++ str_of "---" ++ h) then 1 else 0)
            + count_sub (str_of "---") (t ++ str_of "---" ++ h))%nat.
    rewrite IH.
    enough (E : prefixb (str_of "---") (c :: t ++ str_of "---" ++ h) = false)
      by now rewrite E.
    change (str_of "---") with [45; 45; 45].
    cbn [prefixb]. rewrite (Z.eqb_sym 45 c).
    destruct (c =? 45) eqn:Ec; [| reflexivity].
    destruct (Hc eq_refl) as [Hne Hhd].
    destruct t as [| d t']; [tauto |].
    simpl in Hhd. cbn [app prefixb]. now rewrite (Z.eqb_sym 45 d), Hhd.
Qed.

(** Its three hyphens are the only run of two or more. *)
Lemma shape_runs (e h : str) (k : nat) :
  contains (str_of "--") e = false ->
  endswith (str_of "-") e = false ->
  forallb hex_char h = true ->
  (k <= 1)%nat ->
  (k = 1%nat -> e <> [] /\ head_hyphen e = false) ->
  filter (fun n => Nat.leb 2 n) (hyphen_runs_from k (e ++ str_of "---" ++ h)) = [3%nat].
Proof.
  intros Hp He Hh. revert k. induction e as [| c t IH]; intros k Hk Hk1.
  - assert (k = 0%nat) as -> by (destruct k as [| [| ?]]; [reflexivity | | lia];
                                 destruct (Hk1 eq_refl); tauto).
    change (str_of "---") with [45; 45; 45].
    cbn [app hyphen_runs_from Z.eqb Pos.eqb].
    rewrite (hex_no_runs h 3 Hh). reflexivity.
  - destruct (tail_no_pair c t Hp He) as [Hp' [He' Hc]].
    cbn [app hyphen_runs_from].
    destruct (c =? 45) eqn:Ec.
    + assert (k = 0%nat) as ->.
      { destruct k as [| [| ?]]; [reflexivity | | lia].
        destruct (Hk1 eq_refl) as [_ Hd]. simpl in Hd. congruence. }
      apply IH; [assumption | assumption | lia | intros _; now apply Hc].
    + rewrite filter_app.
      rewrite (IH Hp' He' 0%nat) by (lia || discriminate).
      destruct k as [| [| ?]]; [reflexivity | reflexivity | lia].
Qed.

(** The text before the first pair of hyphens of [e ++ "--" ++ r] is [e]. *)
Lemma before_pair_app (e r : str) :
  contains (str_of "--") e = false ->
  endswith (str_of "-") e = false ->
  before_pair (e ++ str_of "--" ++ r) = e.
Proof.
  intros Hp He. induction e as [| c t IH]; [reflexivity |].
  destruct (tail_no_pair c t Hp He) as [Hp' [He' Hc]].
  cbn [app before_pair]. rewrite (IH Hp' He').
  enough (E : (c =? 45) && head_hyphen (t ++ str_of "--" ++ r) = false) by now rewrite E.
  destruct (c =? 45) eqn:Ec; [| reflexivity].
  destruct (Hc eq_refl) as [Hne Hhd].
  now rewrite head_hyphen_app.
Qed.

Lemma shape_slug_chars (e h : str) :
  forallb slug_char e = true ->
  forallb hex_char h = true ->
  forallb slug_char (e ++ str_of "---" ++ h) = true.
Proof.
  intros He Hh. rewrite !forallb_app, He.
  change (forallb slug_char (str_of "---")) with true.
  cbn [andb]. apply forallb_forall. intros c Hc.
  rewrite forallb_forall in Hh. auto using hex_is_slug.
Qed.

Lemma shape_len (e h : str) :
  List.length h = 8%nat -> len (e ++ str_of "---" ++ h) = len e + 11.
Proof.
  intros Hh. unfold len. rewrite !length_app, Hh.
  change (List.length (str_of "---")) with 3%nat. lia.
Qed.

Lemma join_slug_chars (parts : list str) :
  (forall p, In p parts -> forallb slug_char p = true) ->
  forallb slug_char (join (str_of "--") parts) = true.
Proof.
  induction parts as [| p rest IH]; intros H; [reflexivity |].
  destruct rest as [| q rest'].
  - apply H. now left.
  - change (join (str_of "--") (p :: q :: rest'))
      with (p ++ str_of "--" ++ join (str_of "--") (q :: rest')).
    rewrite !forallb_app, (H p (or_introl eq_refl)), IH by (intros; apply H; now right).
    reflexivity.
Qed.

(** ** The validity predicates *)

Section Rules.

Variable unicode_variants : char -> list char.

Lemma object_class_slug_char (c : char) :
  slug_char c = true -> class_match unicode_variants _object_pattern c = true.
Proof.
  intros H. unfold class_match.
  change (ranges _object_pattern) with [(97, 122); (48, 57); (46, 46); (45, 45)].
  apply orb_true_iff. left.
  unfold in_ranges. cbn [existsb fst snd]. unfold slug_char in H. lia.
Qed.

Lemma match_from_all (p : pattern) (seen : bool) (s : str) :
  forallb (class_match unicode_variants p) s = true ->
  seen = true \/ s <> [] ->
  match_from unicode_variants p seen s = true.
Proof.
  revert seen. induction s as [| c t IH]; intros seen H Hs.
  - destruct Hs; [assumption | tauto].
  - simpl in H. apply andb_true_iff in H as [Hc Ht].
    cbn [match_from]. rewrite Hc, (IH true Ht (or_introl eq_refl)).
    apply orb_true_r.
Qed.

Lemma strict_rules (s : str) (hi : Z) :
  hi <> 0 ->
  _is_valid_general unicode_variants s (Some _alphanum_lower) (Some _alphanum_lower)
    (Some _object_pattern) (Some 1) (Some hi) =
  (1 <=? len s) && (len s <=? hi) && startswith _alphanum_lower s &&
  endswith _alphanum_lower s && pattern_match unicode_variants _object_pattern s.
Proof.
  intros Hhi. unfold _is_valid_general.
  change (nilb _alphanum_lower) with false.
  change (1 =? 0) with false.
  assert ((hi =? 0) = false) as -> by lia.
  assert ((len s <? 1) = negb (1 <=? len s)) as -> by lia.
  assert ((hi <? len s) = negb (len s <=? hi)) as -> by lia.
  cbn [negb andb].
  destruct (1 <=? len s), (len s <=? hi), (startswith _alphanum_lower s),
    (endswith _alphanum_lower s), (pattern_match unicode_variants _object_pattern s);
    reflexivity.
Qed.

Lemma endswith_all (t : list char) (f : char -> bool) (s : str) :
  (forall c, f c = true -> mem c t = true) ->
  forallb f s = true -> s <> [] -> endswith t s = true.
Proof.
  intros Hf. induction s as [| c k IH]; intros H Hs; [tauto |].
  simpl in H. apply andb_true_iff in H as [Hc Hk].
  rewrite endswith_cons. destruct k as [| d k']; [now apply Hf |].
  apply IH; [assumption | discriminate].
Qed.

(** A string of the shape [name---hash] satisfies the object-name pattern and
    its start and end conditions; only its length can make it invalid. *)
Lemma shape_strict_rules (e h : str) (hi : Z) :
  hi <> 0 ->
  safe_name e -> List.length h = 8%nat -> forallb hex_char h = true ->
  len (e ++ str_of "---" ++ h) <= hi ->
  _is_valid_general unicode_variants (e ++ str_of "---" ++ h)
    (Some _alphanum_lower) (Some _alphanum_lower)
    (Some _object_pattern) (Some 1) (Some hi) = true.
Proof.
  intros Hhi [Hne [Hchars [Hstart [Hend Hpair]]]] Hlen Hhex Hle.
  rewrite strict_rules by assumption.
  assert (Hh : h <> []) by (intros ->; discriminate Hlen).
  repeat (apply andb_true_iff; split).
  - rewrite shape_len by assumption. apply Z.leb_le. unfold len. lia.
  - apply Z.leb_le. exact Hle.
  - destruct e as [| c e']; [tauto |].
    cbn [app startswith]. rewrite mem_alphanum_lower.
    rewrite startswith_hyphen in Hstart. simpl in Hstart, Hchars.
    apply andb_true_iff in Hchars as [Hc _].
    unfold slug_char in Hc. unfold alnum_lower_char. lia.
  - rewrite !endswith_app;
      [| assumption | intros E; apply app_eq_nil in E; tauto].
    apply endswith_all with (f := hex_char); [| assumption | assumption].
    intros c Hc. rewrite mem_alphanum_lower. now apply hex_is_alnum_lower.
  - apply match_from_all.
    + apply forallb_forall. intros c Hc. apply object_class_slug_char.
      pose proof (shape_slug_chars e h Hchars Hhex) as Hall.
      rewrite forallb_forall in Hall. now apply Hall.
    + right. destruct e; [tauto | discriminate].
Qed.

Lemma strict_rules_len (s : str) (hi : Z) :
  hi <> 0 ->
  _is_valid_general unicode_variants s (Some _alphanum_lower) (Some _alphanum_lower)
    (Some _object_pattern) (Some 1) (Some hi) = true ->
  len s <= hi.
Proof. intros Hhi. rewrite strict_rules by assumption. lia. Qed.

Lemma is_valid_label_len (s : str) :
  is_valid_label unicode_variants s = true -> len s <= 63.
Proof.
  unfold is_valid_label. destruct s as [| c t]; [intros _; unfold len; simpl; lia |].
  cbn [nilb]. unfold _is_valid_general.
  change (63 =? 0) with false. cbn [negb andb].
  destruct (63 <? len (c :: t)) eqn:E; [discriminate | lia].
Qed.

(** What the label pattern accepts among the ASCII characters: letters,
    digits, and the whole range from the dot to the underscore; not the
    hyphen. *)
Lemma label_class_ascii (c : char) :
  0 <= c < 128 ->
  class_match unicode_variants _label_pattern c =
  alnum_char c || ((46 <=? c) && (c <=? 95)).
Proof.
  intros Hc.
  assert (T : forallb (fun k =>
                Bool.eqb (class_match unicode_variants _label_pattern (Z.of_nat k))
                         (alnum_char (Z.of_nat k) ||
                          ((46 <=? Z.of_nat k) && (Z.of_nat k <=? 95))))
              (seq 0 128) = true) by (vm_compute; reflexivity).
  rewrite forallb_forall in T. specialize (T (Z.to_nat c)).
  rewrite Z2Nat.id in T by lia.
  apply eqb_prop, T, in_seq. lia.
Qed.

End Rules.

(** * The claims *)

(** C9.  For every string and every maximum length of at least 1,
    [_extract_safe_name] returns a non-empty string of at most that many
    characters, made of lowercase letters, digits and hyphens only, that
    neither starts nor ends with a hyphen and has no two hyphens in a row;
    and [_extract_safe_name("My--User_Name!!", 10)] is ["my-usernam"]. *)
Theorem extract_safe_name_spec (unicode_lower : str -> str) :
  (forall (s : str) (max_length : Z),
      1 <= max_length ->
      let r := _extract_safe_name unicode_lower s max_length in
      r <> [] /\
      len r <= max_length /\
      forallb slug_char r = true /\
      startswith (str_of "-") r = false /\
      endswith (str_of "-") r = false /\
      contains (str_of "--") r = false) /\
  _extract_safe_name unicode_lower (str_of "My--User_Name!!") 10 = str_of "my-usernam".
Proof.
  split; [| reflexivity].
  intros s max_length H r.
  destruct (extract_safe_name_safe unicode_lower s max_length H) as [Hs Hl].
  unfold safe_name in Hs. tauto.
Qed.

Lemma extract_safe_name_spec_witness :
  let r := _extract_safe_name no_unicode_lower (str_of "--Jo--Ann--") 5 in
  r = str_of "jo-an" /\
  r <> [] /\ len r <= 5 /\ forallb slug_char r = true /\
  startswith (str_of "-") r = false /\ endswith (str_of "-") r = false /\
  contains (str_of "--") r = false.
Proof.
  split; [reflexivity |].
  apply (proj1 (extract_safe_name_spec no_unicode_lower) (str_of "--Jo--Ann--") 5).
  lia.
Defined.

(** C6.  For every string [s] (UTF-8-encodable text, the module's input
    domain) and every [M >= 12], [strip_and_hash(s, M)] does not raise and
    its result is at most [M] characters long. *)
Theorem strip_and_hash_length (unicode_lower : str -> str) (s : str) (M : Z) :
  Utf8.encodable s = true ->
  12 <= M ->
  exists r, strip_and_hash unicode_lower s M = Ok r /\ len r <= M.
Proof.
  intros Hs HM.
  destruct (strip_and_hash_cases unicode_lower s M)
    as [[H _] | [[_ [H _]] | [_ [_ [h [Hlen [Hhex ->]]]]]]]; [lia | congruence |].
  eexists. split; [reflexivity |].
  rewrite shape_len by assumption.
  pose proof (extract_safe_name_safe unicode_lower s (M - 11) ltac:(lia)). lia.
Qed.

Lemma strip_and_hash_length_witness :
  exists r, strip_and_hash no_unicode_lower (str_of "Some Very Long User Name") 16 = Ok r /\
            len r <= 16.
Proof.
  apply (strip_and_hash_length no_unicode_lower (str_of "Some Very Long User Name") 16);
    [reflexivity | lia].
Defined.

(** C7.  For every string [s] and every [M >= 12], the string returned by
    [strip_and_hash(s, M)] contains ["---"] at exactly one position, and that
    run of three is its only run of two or more hyphens; on UTF-8-encodable
    text a string is returned. *)
Theorem strip_and_hash_delimiter (unicode_lower : str -> str) (s : str) (M : Z) :
  12 <= M ->
  (forall r, strip_and_hash unicode_lower s M = Ok r ->
             count_sub (str_of "---") r = 1%nat /\ long_runs r = [3%nat]) /\
  (Utf8.encodable s = true -> exists r, strip_and_hash unicode_lower s M = Ok r).
Proof.
  intros HM.
  destruct (extract_safe_name_safe unicode_lower s (M - 11) ltac:(lia))
    as [[Hne [Hchars [Hstart [Hend Hpair]]]] _].
  destruct (strip_and_hash_cases unicode_lower s M)
    as [[H _] | [[_ [Henc H]] | [_ [Henc [h [Hlen [Hhex H]]]]]]]; [lia | |];
    rewrite H; (split; [intros r Hr | intros He]); try congruence.
  - injection Hr as <-. split.
    + now apply shape_one_triple.
    + unfold long_runs, hyphen_runs.
      apply shape_runs; [assumption | assumption | assumption | lia | discriminate].
  - eauto.
Qed.

Lemma strip_and_hash_delimiter_witness :
  exists r, strip_and_hash no_unicode_lower (str_of "a--b-") 32 = Ok r /\
            count_sub (str_of "---") r = 1%nat /\ long_runs r = [3%nat].
Proof.
  eexists. split; [vm_compute; reflexivity |].
  apply (proj1 (strip_and_hash_delimiter no_unicode_lower (str_of "a--b-") 32 ltac:(lia))).
  vm_compute. reflexivity.
Defined.

(** C8.  On UTF-8-encodable text, [strip_and_hash(s, M)] raises its
    configuration error exactly when [M < 12], and [multi_slug(ns, M)] on a
    non-empty list raises its configuration error exactly when the
    per-component extraction budget, [(M - 9) // len(ns) - 2], is below 2;
    in every other case a string is returned, whatever the strings hold. *)
Theorem configuration_errors (unicode_lower : str -> str) :
  (forall (s : str) (M : Z),
      Utf8.encodable s = true ->
      (strip_and_hash unicode_lower s M = Raise ValueError <-> M < 12) /\
      (12 <= M -> exists r, strip_and_hash unicode_lower s M = Ok r)) /\
  (forall (ns : list str) (M : Z),
      ns <> [] ->
      forallb Utf8.encodable ns = true ->
      (multi_slug unicode_lower ns M = Raise ValueError <->
       (M - 9) / len ns - 2 < 2) /\
      (2 <= (M - 9) / len ns - 2 -> exists r, multi_slug unicode_lower ns M = Ok r)).
Proof.
  split.
  - intros s M Hs.
    destruct (strip_and_hash_cases unicode_lower s M)
      as [[HM H] | [[_ [Henc _]] | [HM [_ [h [_ [_ H]]]]]]];
      [| congruence |]; rewrite H.
    + split; [tauto | lia].
    + split; [split; [discriminate | lia] | eauto].
  - intros ns M Hne Hns.
    fold (name_budget ns M).
    destruct (multi_slug_cases unicode_lower ns M Hne)
      as [[Henc _] | [[_ [HM H]] | [_ [HM [h [_ [_ H]]]]]]];
      [congruence | |]; rewrite H.
    + split; [tauto | lia].
    + split; [split; [discriminate | lia] | eauto].
Qed.

Lemma configuration_errors_witness :
  (strip_and_hash no_unicode_lower (str_of "a") 11 = Raise ValueError <-> 11 < 12) /\
  (exists r, multi_slug no_unicode_lower [str_of "user"; str_of "server"] 17 = Ok r).
Proof.
  split.
  - apply (proj1 (configuration_errors no_unicode_lower) (str_of "a") 11). reflexivity.
  - apply (proj2 (configuration_errors no_unicode_lower) [str_of "user"; str_of "server"] 17);
      [discriminate | reflexivity | vm_compute; discriminate].
Defined.

(** C5.  If [is_valid_default(s)] is true, [s] contains no ["--"] and
    [len(s) <= max_length], then [safe_slug(s, is_valid_default, max_length)]
    returns [s] unchanged; so it does when no maximum length is given. *)
Theorem safe_slug_idempotent (unicode_lower : str -> str)
    (unicode_variants : char -> list char) (s : str) :
  is_valid_default unicode_variants s = true ->
  contains (str_of "--") s = false ->
  (forall max_length : Z,
      len s <= max_length ->
      safe_slug unicode_lower s (is_valid_default unicode_variants) (Some max_length) = Ok s) /\
  safe_slug unicode_lower s (is_valid_default unicode_variants) None = Ok s.
Proof.
  intros Hv Hp. unfold safe_slug. rewrite Hp, Hv. split; [| reflexivity].
  intros max_length Hl. apply Z.leb_le in Hl. now rewrite Hl.
Qed.

Lemma safe_slug_idempotent_witness :
  safe_slug no_unicode_lower (str_of "my-app.v2")
    (is_valid_default no_unicode_variants) (Some 9) = Ok (str_of "my-app.v2").
Proof.
  apply (proj1 (safe_slug_idempotent no_unicode_lower no_unicode_variants
                  (str_of "my-app.v2") eq_refl eq_refl) 9).
  vm_compute. discriminate.
Defined.

(** C10.  For every non-empty name and every validity predicate,
    [safe_slug] called with [max_length = 0] is [strip_and_hash(name, 32)]:
    the zero is replaced by the default 32.  On UTF-8-encodable text it does
    not raise, and its result, up to 32 characters long, is longer than the
    bound that was asked for. *)
Theorem safe_slug_zero_max_length (unicode_lower : str -> str)
    (name : str) (is_valid : str -> bool) :
  name <> [] ->
  safe_slug unicode_lower name is_valid (Some 0) = strip_and_hash unicode_lower name 32 /\
  (Utf8.encodable name = true ->
   exists r, safe_slug unicode_lower name is_valid (Some 0) = Ok r /\ 0 < len r <= 32).
Proof.
  intros Hne.
  assert (E : safe_slug unicode_lower name is_valid (Some 0) =
              strip_and_hash unicode_lower name 32).
  { unfold safe_slug. change (or_default (Some 0) 32) with 32.
    destruct (contains (str_of "--") name); [reflexivity |].
    assert ((len name <=? 0) = false) as ->.
    { destruct name; [tauto |]. apply Z.leb_gt. unfold len. simpl List.length. lia. }
    now rewrite andb_false_r. }
  split; [exact E |].
  intros Henc. rewrite E.
  destruct (strip_and_hash_cases unicode_lower name 32)
    as [[H _] | [[_ [H _]] | [_ [_ [h [Hlen [Hhex ->]]]]]]]; [lia | congruence |].
  eexists. split; [reflexivity |].
  rewrite shape_len by assumption.
  pose proof (extract_safe_name_safe unicode_lower name (32 - 11) ltac:(lia)) as [_ Hl].
  unfold len in *. lia.
Qed.

Lemma safe_slug_zero_max_length_witness :
  safe_slug no_unicode_lower (str_of "jovyan")
    (is_valid_default no_unicode_variants) (Some 0) =
  strip_and_hash no_unicode_lower (str_of "jovyan") 32 /\
  exists r, safe_slug no_unicode_lower (str_of "jovyan")
              (is_valid_default no_unicode_variants) (Some 0) = Ok r /\ 0 < len r <= 32.
Proof.
  destruct (safe_slug_zero_max_length no_unicode_lower (str_of "jovyan")
              (is_valid_default no_unicode_variants) ltac:(discriminate)) as [E H].
  split; [exact E | apply H; reflexivity].
Defined.

(** ** Slugs of several components *)

Lemma join_head (sep p : str) (rest : list str) :
  exists w, join sep (p :: rest) = p ++ w.
Proof.
  destruct rest as [| q rest'].
  - exists []. symmetry. apply app_nil_r.
  - now exists (sep ++ join sep (q :: rest')).
Qed.

Section Components.

Variable unicode_lower : str -> str.

(** What [safe_slug] returns when it returns: the name itself, or a hashed
    slug. *)
Lemma safe_slug_cases (name : str) (is_valid : str -> bool) (max_length : option Z)
    (r : str) :
  safe_slug unicode_lower name is_valid max_length = Ok r ->
  (r = name /\ contains (str_of "--") name = false /\ is_valid name = true /\
   match max_length with None => True | Some m => len name <= m end) \/
  strip_and_hash unicode_lower name (or_default max_length 32) = Ok r.
Proof.
  unfold safe_slug.
  destruct (contains (str_of "--") name); [now right |].
  destruct (is_valid name); cbn [andb]; [| now right].
  destruct max_length as [m |].
  - destruct (len name <=? m) eqn:E; [| now right].
    intros [= <-]. left. repeat split. now apply Z.leb_le.
  - intros [= <-]. left. repeat split.
Qed.

Lemma strip_and_hash_shape (name : str) (max_length : Z) (r : str) :
  strip_and_hash unicode_lower name max_length = Ok r ->
  exists e h, r = e ++ str_of "---" ++ h /\ safe_name e /\
              len e <= max_length - 11 /\
              List.length h = 8%nat /\ forallb hex_char h = true.
Proof.
  intros Hr.
  destruct (strip_and_hash_cases unicode_lower name max_length)
    as [[_ H] | [[_ [_ H]] | [HM [_ [h [Hlen [Hhex H]]]]]]]; [congruence | congruence |].
  rewrite H in Hr. injection Hr as <-.
  destruct (extract_safe_name_safe unicode_lower name (max_length - 11) ltac:(lia))
    as [Hsafe Hle].
  eexists _, h. repeat split; try eassumption; apply Hsafe.
Qed.

Lemma multi_slug_shape (names : list str) (max_length : Z) (r : str) :
  names <> [] ->
  multi_slug unicode_lower names max_length = Ok r ->
  exists es h, r = join (str_of "--") es ++ str_of "---" ++ h /\
               List.length es = List.length names /\
               (forall e, In e es -> safe_name e) /\
               List.length h = 8%nat /\ forallb hex_char h = true.
Proof.
  intros Hne Hr.
  destruct (multi_slug_cases unicode_lower names max_length Hne)
    as [[_ H] | [[_ [_ H]] | [_ [HM [h [Hlen [Hhex H]]]]]]]; [congruence | congruence |].
  rewrite H in Hr. injection Hr as <-.
  eexists _, h. split; [reflexivity |].
  split; [apply length_map |]. split; [| tauto].
  intros e He. apply in_map_iff in He as [name [<- _]].
  apply extract_safe_name_safe. lia.
Qed.

End Components.

(** C2, as amended.  Whatever the validity predicate and the maximum length,
    the string returned by [safe_slug] is either the input itself, passed
    through because it is valid and free of ["--"], or a non-empty string of
    lowercase ASCII letters, digits and hyphens; the string returned by
    [multi_slug] on a non-empty list always is such a string. *)
Theorem slug_charset (unicode_lower : str -> str) :
  (forall (s : str) (is_valid : str -> bool) (max_length : option Z) (r : str),
      safe_slug unicode_lower s is_valid max_length = Ok r ->
      (r = s /\ is_valid s = true /\ contains (str_of "--") s = false) \/
      (r <> [] /\ forallb slug_char r = true)) /\
  (forall (ns : list str) (max_length : Z) (r : str),
      ns <> [] ->
      multi_slug unicode_lower ns max_length = Ok r ->
      r <> [] /\ forallb slug_char r = true).
Proof.
  split.
  - intros s is_valid max_length r Hr.
    apply safe_slug_cases in Hr as [[-> [Hp [Hv _]]] | Hr]; [left; tauto | right].
    apply strip_and_hash_shape in Hr as [e [h [-> [[Hne [Hchars _]] [_ [_ Hhex]]]]]].
    split; [destruct e; [tauto | discriminate] | now apply shape_slug_chars].
  - intros ns max_length r Hne Hr.
    apply multi_slug_shape in Hr as [es [h [-> [_ [Hes [_ Hhex]]]]]]; [| assumption].
    split.
    + intros E. apply app_eq_nil in E as [_ E]. discriminate E.
    + apply shape_slug_chars; [| assumption].
      apply join_slug_chars. intros p Hp. now apply Hes.
Qed.

Lemma slug_charset_witness :
  (exists r, safe_slug no_unicode_lower (str_of "Hello World!")
               (is_valid_default no_unicode_variants) None = Ok r /\
             r <> [] /\ forallb slug_char r = true) /\
  (exists r, multi_slug no_unicode_lower [str_of "User_1"; str_of "My Server"] 48 = Ok r /\
             r <> [] /\ forallb slug_char r = true).
Proof.
  split; eexists; (split; [vm_compute; reflexivity |]).
  - destruct (proj1 (slug_charset no_unicode_lower) (str_of "Hello World!")
                (is_valid_default no_unicode_variants) None _ eq_refl) as [[E _] | H];
      [discriminate E | exact H].
  - apply (proj2 (slug_charset no_unicode_lower) [str_of "User_1"; str_of "My Server"] 48);
      [discriminate | reflexivity].
Defined.

(** C2 fails as stated: a valid name is returned as it is, and a valid name
    may hold a dot. *)
Lemma safe_slug_keeps_dot :
  safe_slug no_unicode_lower (str_of "a.b") (is_valid_default no_unicode_variants) None
    = Ok (str_of "a.b") /\
  forallb slug_char (str_of "a.b") = false.
Proof. split; reflexivity. Qed.

(** C3, as amended.  For every list [ns] of at least two components, every
    maximum length [M] and every string [s], [multi_slug(ns, M)] is never
    equal to [strip_and_hash(s, M)]. *)
Theorem multi_slug_disjoint (unicode_lower : str -> str)
    (ns : list str) (M : Z) (s : str) (r : str) :
  2 <= len ns ->
  multi_slug unicode_lower ns M = Ok r ->
  strip_and_hash unicode_lower s M <> Ok r.
Proof.
  intros Hlen Hm Hs.
  apply multi_slug_shape in Hm as [es [h [Er [Hn [Hes [_ Hhex]]]]]];
    [| intros ->; unfold len in Hlen; simpl in Hlen; lia].
  apply strip_and_hash_shape in Hs as [e [h' [Er' [He [_ [_ Hhex']]]]]].
  destruct es as [| e1 [| e2 es']];
    try (unfold len in Hlen; rewrite <- Hn in Hlen; simpl in Hlen; lia).
  destruct (Hes e1 (or_introl eq_refl)) as [_ [_ [_ [Hend1 Hpair1]]]].
  destruct (Hes e2 (or_intror (or_introl eq_refl))) as [Hne2 [_ [Hstart2 _]]].
  destruct He as [_ [_ [_ [Hend Hpair]]]].
  destruct (join_head (str_of "--") e2 es') as [w Ew].
  assert (E : e1 ++ str_of "--" ++ (e2 ++ w ++ str_of "---" ++ h)
              = e ++ str_of "--" ++ (str_of "-" ++ h')).
  { rewrite <- Er' at 1. rewrite Er.
    change (join (str_of "--") (e1 :: e2 :: es'))
      with (e1 ++ str_of "--" ++ join (str_of "--") (e2 :: es')).
    rewrite Ew, <- !app_assoc. reflexivity. }
  pose proof (f_equal before_pair E) as B.
  rewrite !before_pair_app in B by assumption. subst e1.
  apply app_inv_head, app_inv_head in E.
  apply (f_equal head_hyphen) in E.
  rewrite head_hyphen_app in E by assumption.
  rewrite startswith_hyphen in Hstart2. rewrite Hstart2 in E. discriminate E.
Qed.

Lemma multi_slug_disjoint_witness :
  exists r, multi_slug no_unicode_lower [str_of "a"; str_of "b"] 48 = Ok r /\
            strip_and_hash no_unicode_lower (str_of "a--b") 48 <> Ok r.
Proof.
  eexists. split; [vm_compute; reflexivity |].
  apply (multi_slug_disjoint no_unicode_lower [str_of "a"; str_of "b"] 48 (str_of "a--b"));
    [vm_compute; discriminate | vm_compute; reflexivity].
Defined.

(** C3 fails as stated: with a single component the two operations agree. *)
Lemma multi_slug_singleton_collides :
  multi_slug no_unicode_lower [str_of "a"] 48 = Ok (str_of "a---ca978112") /\
  strip_and_hash no_unicode_lower (str_of "a") 48 = Ok (str_of "a---ca978112").
Proof. split; vm_compute; reflexivity. Qed.

(** C4, as amended.  For every string, every rule set and every maximum-length
    argument, the string [r] returned by [safe_slug] is at most
    [max_length or 32] characters long when a maximum length was given, and at
    most the rule set's own maximum (255 for object names, 63 otherwise) when
    none was; and under the object-name and the default rules [r] satisfies the
    predicate whenever [max_length or 32] does not exceed that maximum. *)
Theorem safe_slug_valid (unicode_lower : str -> str)
    (unicode_variants : char -> list char)
    (s : str) (R : rule_set) (max_length : option Z) (r : str) :
  safe_slug unicode_lower s (predicate_of unicode_variants R) max_length = Ok r ->
  (max_length <> None -> len r <= or_default max_length 32) /\
  (max_length = None -> len r <= rule_max R) /\
  (R <> LabelRules ->
   or_default max_length 32 <= rule_max R ->
   predicate_of unicode_variants R r = true).
Proof.
  intros Hr.
  apply safe_slug_cases in Hr as [[-> [Hp [Hv Hm]]] | Hr].
  - split; [| split].
    + destruct max_length as [m |]; [intros _ | tauto].
      unfold or_default. destruct (m =? 0) eqn:E; lia.
    + intros _. destruct R; cbn [predicate_of rule_max] in *.
      * now apply (strict_rules_len unicode_variants).
      * now apply (is_valid_label_len unicode_variants).
      * now apply (strict_rules_len unicode_variants).
    + intros _ _. exact Hv.
  - apply strip_and_hash_shape in Hr as [e [h [-> [Hsafe [Hle [Hlen Hhex]]]]]].
    pose proof (shape_len e h Hlen) as L.
    split; [| split].
    + intros _. lia.
    + intros ->. cbn [or_default] in *. destruct R; cbn [rule_max]; lia.
    + intros HR Hmax.
      destruct R; [| tauto |]; cbn [predicate_of rule_max] in *;
        apply shape_strict_rules; try assumption; lia.
Qed.

Lemma safe_slug_valid_witness :
  exists r, safe_slug no_unicode_lower (str_of "Hello World!")
              (predicate_of no_unicode_variants DefaultRules) (Some 20) = Ok r /\
            len r <= 20 /\
            predicate_of no_unicode_variants DefaultRules r = true.
Proof.
  eexists. split; [vm_compute; reflexivity |].
  destruct (safe_slug_valid no_unicode_lower no_unicode_variants (str_of "Hello World!")
              DefaultRules (Some 20) _ eq_refl) as [Hl [_ Hv]].
  split; [apply Hl; discriminate | apply Hv; [discriminate | vm_compute; discriminate]].
Defined.

(** C4 fails as stated: a maximum length above the rule set's own lets the
    hashed slug grow past what the predicate accepts. *)
Lemma safe_slug_long_max_length_invalid :
  exists r, safe_slug no_unicode_lower (repeat 97 70)
              (is_valid_default no_unicode_variants) (Some 100) = Ok r /\
            len r = 81 /\
            is_valid_default no_unicode_variants r = false.
Proof. eexists. split; [vm_compute; reflexivity | split; vm_compute; reflexivity]. Qed.

(** C1: the label pattern as written.  Its class text is [a-z0-9\.-_], in
    which [\.-_] is the range from the dot to the underscore; the hyphen lies
    below that range and the characters [/ : ; < = > ? @ [ \ ] ^] lie inside
    it.  So ["a-b"] is rejected and ["a/b"] is accepted. *)
Theorem is_valid_label_range (unicode_variants : char -> list char) :
  ranges _label_pattern = [(97, 122); (48, 57); (46, 95)] /\
  is_valid_label unicode_variants (str_of "a-b") = false /\
  is_valid_label unicode_variants (str_of "a/b") = true /\
  is_valid_label unicode_variants (str_of "a_B.c") = true.
Proof. repeat split. Qed.

(** * Further properties of the module *)

(** ** The validity predicates, in full *)

Lemma startswith_first (t : list char) (f : char -> bool) (s : str) :
  (forall c, mem c t = f c) -> startswith t s = first_char_in f s.
Proof. intros H. destruct s; [reflexivity | apply H]. Qed.

Lemma endswith_last (t : list char) (f : char -> bool) (s : str) :
  (forall c, mem c t = f c) -> endswith t s = last_char_in f s.
Proof. intros H. unfold endswith, last_char_in. destruct (rev s); [reflexivity | apply H]. Qed.

Lemma endswith_excludes (t t' : list char) (s : str) :
  (forall c, mem c t = true -> mem c t' = false) ->
  endswith t s = true -> endswith t' s = false.
Proof.
  intros H. unfold endswith. destruct (rev s); [discriminate | apply H].
Qed.

Lemma forallb_pointwise (f g : char -> bool) (s : str) :
  (forall c, f c = g c) -> forallb f s = forallb g s.
Proof.
  intros H. induction s as [| c t IH]; [reflexivity |].
  cbn [forallb]. now rewrite H, IH.
Qed.

Section RulesInFull.

Variable unicode_variants : char -> list char.

(** When [s] does not end in a newline, the pattern matches it exactly when
    [s] is not empty and all its characters are in the class. *)
Lemma match_from_no_newline (p : pattern) (seen : bool) (s : str) :
  endswith [10] s = false ->
  match_from unicode_variants p seen s =
  (seen || negb (nilb s)) && forallb (class_match unicode_variants p) s.
Proof.
  revert seen. induction s as [| c t IH]; intros seen H.
  - cbn. now rewrite orb_false_r, andb_true_r.
  - rewrite endswith_cons in H. cbn [match_from nilb negb forallb].
    rewrite orb_true_r. cbn [andb].
    destruct t as [| d t'].
    + cbn [nilb] in H. unfold mem in H. cbn [existsb] in H.
      rewrite orb_false_r in H. rewrite H, andb_false_r. reflexivity.
    + cbn [nilb] in *. rewrite andb_false_r. cbn [orb].
      rewrite (IH true H). reflexivity.
Qed.

Lemma object_class (c : char) :
  class_match unicode_variants _object_pattern c = object_char c.
Proof.
  unfold class_match.
  change (ranges _object_pattern) with [(97, 122); (48, 57); (46, 46); (45, 45)].
  change (ignorecase _object_pattern) with false.
  unfold in_ranges, object_char, slug_char. cbn [existsb fst snd andb].
  rewrite !orb_false_r.
  apply eq_true_iff_eq. rewrite !orb_true_iff, !andb_true_iff. lia.
Qed.

Lemma strict_rules_in_full (s : str) (hi : Z) :
  hi <> 0 ->
  _is_valid_general unicode_variants s (Some _alphanum_lower) (Some _alphanum_lower)
    (Some _object_pattern) (Some 1) (Some hi) =
  (1 <=? len s) && (len s <=? hi) && first_char_in alnum_lower_char s &&
  last_char_in alnum_lower_char s && forallb object_char s.
Proof.
  intros Hhi. rewrite strict_rules by assumption.
  rewrite (startswith_first _ alnum_lower_char) by apply mem_alphanum_lower.
  destruct (endswith _alphanum_lower s) eqn:E.
  - rewrite <- (endswith_last _alphanum_lower) by apply mem_alphanum_lower.
    rewrite E. unfold pattern_match.
    rewrite match_from_no_newline
      by (apply (endswith_excludes _alphanum_lower); [| exact E];
          intros c Hc; rewrite mem_alphanum_lower in Hc;
          unfold mem; cbn [existsb]; unfold alnum_lower_char in Hc; lia).
    cbn [orb].
    rewrite (forallb_pointwise _ object_char s object_class).
    destruct s; [now rewrite !andb_false_r |]. reflexivity.
  - rewrite <- (endswith_last _alphanum_lower) by apply mem_alphanum_lower.
    rewrite E. now rewrite !andb_false_r.
Qed.

Lemma is_valid_object_name_in_full (s : str) :
  is_valid_object_name unicode_variants s =
  (1 <=? len s) && (len s <=? 255) && first_char_in alnum_lower_char s &&
  last_char_in alnum_lower_char s && forallb object_char s.
Proof. apply strict_rules_in_full. discriminate. Qed.

Lemma is_valid_default_in_full (s : str) :
  is_valid_default unicode_variants s =
  (1 <=? len s) && (len s <=? 63) && first_char_in alnum_lower_char s &&
  last_char_in alnum_lower_char s && forallb object_char s.
Proof. apply strict_rules_in_full. discriminate. Qed.

Lemma label_rules_in_full (s : str) :
  is_valid_label unicode_variants s =
  nilb s ||
  ((len s <=? 63) && first_char_in alnum_char s && last_char_in alnum_char s &&
   forallb (class_match unicode_variants _label_pattern) s).
Proof.
  unfold is_valid_label. destruct (nilb s) eqn:Hnil; [reflexivity |].
  cbn [orb]. unfold _is_valid_general.
  change (nilb _alphanum) with false. change (63 =? 0) with false.
  cbn [negb andb].
  assert ((63 <? len s) = negb (len s <=? 63)) as -> by lia.
  rewrite (startswith_first _ alnum_char) by apply mem_alphanum.
  destruct (len s <=? 63); cbn [negb andb]; [| reflexivity].
  destruct (first_char_in alnum_char s); cbn [negb andb]; [| reflexivity].
  destruct (endswith _alphanum s) eqn:E;
    rewrite <- (endswith_last _alphanum) by apply mem_alphanum; rewrite E;
    cbn [negb andb]; [| reflexivity].
  unfold pattern_match.
  rewrite match_from_no_newline
    by (apply (endswith_excludes _alphanum); [| exact E];
        intros c Hc; rewrite mem_alphanum in Hc;
        unfold mem; cbn [existsb]; unfold alnum_char, alnum_lower_char in Hc; lia).
  rewrite Hnil. cbn [negb orb andb].
  now destruct (forallb _ s).
Qed.

Lemma label_class_hyphen : class_match unicode_variants _label_pattern 45 = false.
Proof. reflexivity. Qed.

Lemma label_class_object_chars (s : str) :
  forallb object_char s = true ->
  forallb (class_match unicode_variants _label_pattern) s = negb (mem 45 s).
Proof.
  induction s as [| c t IH]; intros H; [reflexivity |].
  cbn [forallb] in *. apply andb_true_iff in H as [Hc Ht].
  rewrite (IH Ht). unfold mem. cbn [existsb]. fold (mem 45 t).
  rewrite (Z.eqb_sym 45 c).
  destruct (c =? 45) eqn:E.
  - apply Z.eqb_eq in E. subst c. reflexivity.
  - rewrite label_class_ascii
      by (unfold object_char, slug_char in Hc; lia).
    cbn [orb negb].
    enough (alnum_char c || ((46 <=? c) && (c <=? 95)) = true) as -> by reflexivity.
    unfold alnum_char, alnum_lower_char.
    unfold object_char, slug_char in Hc. lia.
Qed.

End RulesInFull.

(** X1.  [is_valid_object_name] and [is_valid_default] are true exactly of the
    strings of 1 to 255, respectively 1 to 63, characters that start and end
    with a lowercase letter or a digit and hold nothing but lowercase
    letters, digits, dots and hyphens. *)
Theorem strict_predicates_in_full (unicode_variants : char -> list char) (s : str) :
  is_valid_object_name unicode_variants s =
    (1 <=? len s) && (len s <=? 255) && first_char_in alnum_lower_char s &&
    last_char_in alnum_lower_char s && forallb object_char s /\
  is_valid_default unicode_variants s =
    (1 <=? len s) && (len s <=? 63) && first_char_in alnum_lower_char s &&
    last_char_in alnum_lower_char s && forallb object_char s.
Proof.
  split; [apply is_valid_object_name_in_full | apply is_valid_default_in_full].
Qed.

(** X2.  A name that [is_valid_default] accepts is accepted by
    [is_valid_object_name]; [is_valid_label] accepts it exactly when it holds
    no hyphen. *)
Theorem default_is_strictest (unicode_variants : char -> list char) (s : str) :
  is_valid_default unicode_variants s = true ->
  is_valid_object_name unicode_variants s = true /\
  is_valid_label unicode_variants s = negb (mem 45 s).
Proof.
  rewrite is_valid_object_name_in_full, is_valid_default_in_full.
  intros H.
  apply andb_true_iff in H as [H Hchars].
  apply andb_true_iff in H as [H Hlast].
  apply andb_true_iff in H as [H Hfirst].
  apply andb_true_iff in H as [Hlo Hhi].
  split.
  - rewrite Hlo, Hfirst, Hlast, Hchars.
    assert ((len s <=? 255) = true) as -> by lia. reflexivity.
  - rewrite label_rules_in_full, Hhi.
    rewrite (label_class_object_chars unicode_variants s Hchars).
    assert (Hup : forall c, alnum_lower_char c = true -> alnum_char c = true)
      by (intros c Hc; unfold alnum_char; now rewrite Hc).
    assert (first_char_in alnum_char s = true) as ->
      by (destruct s; [discriminate | now apply Hup]).
    assert (last_char_in alnum_char s = true) as ->
      by (unfold last_char_in in *; destruct (rev s); [discriminate | now apply Hup]).
    destruct s; [discriminate | reflexivity].
Qed.

Lemma default_is_strictest_witness :
  is_valid_object_name no_unicode_variants (str_of "my-app.v2") = true /\
  is_valid_label no_unicode_variants (str_of "my-app.v2") = false.
Proof.
  apply (default_is_strictest no_unicode_variants (str_of "my-app.v2")). reflexivity.
Defined.

(** X3.  On an ASCII string [is_valid_label] is true exactly when the string
    is empty, or has at most 63 characters, starts and ends with a letter or
    a digit, and holds only letters, digits and the characters from ['.'] to
    ['_'] of the ASCII table. *)
Theorem label_predicate_in_full (unicode_variants : char -> list char) (s : str) :
  isascii s = true ->
  is_valid_label unicode_variants s =
  nilb s ||
  ((len s <=? 63) && first_char_in alnum_char s && last_char_in alnum_char s &&
   forallb label_char_ascii s).
Proof.
  intros Hs. rewrite label_rules_in_full. do 2 f_equal.
  induction s as [| c t IH]; [reflexivity |].
  cbn [isascii forallb] in *. apply andb_true_iff in Hs as [Hc Ht].
  rewrite (IH Ht), label_class_ascii by lia. reflexivity.
Qed.

Lemma label_predicate_in_full_witness :
  is_valid_label no_unicode_variants (str_of "a/b") = true.
Proof.
  rewrite (label_predicate_in_full no_unicode_variants (str_of "a/b") eq_refl).
  reflexivity.
Defined.

(** X4.  [is_valid_label] rejects every string that holds a hyphen; so no
    slug that [strip_and_hash] or [multi_slug] returns satisfies it. *)
Theorem label_rejects_hyphen (unicode_lower : str -> str)
    (unicode_variants : char -> list char) :
  (forall s, mem 45 s = true -> is_valid_label unicode_variants s = false) /\
  (forall name M r,
      strip_and_hash unicode_lower name M = Ok r ->
      is_valid_label unicode_variants r = false) /\
  (forall ns M r,
      ns <> [] ->
      multi_slug unicode_lower ns M = Ok r ->
      is_valid_label unicode_variants r = false).
Proof.
  assert (A : forall s, mem 45 s = true -> is_valid_label unicode_variants s = false).
  { intros s Hs. rewrite label_rules_in_full.
    assert (forallb (class_match unicode_variants _label_pattern) s = false) as ->.
    { apply mem_In in Hs. apply not_true_is_false. intros F.
      rewrite forallb_forall in F. specialize (F 45 Hs).
      now rewrite label_class_hyphen in F. }
    rewrite andb_false_r. destruct s; [discriminate | reflexivity]. }
  split; [exact A | split].
  - intros name M r Hr.
    apply strip_and_hash_shape in Hr as [e [h [-> _]]].
    apply A, mem_In, in_or_app. right. now left.
  - intros ns M r Hne Hr.
    apply multi_slug_shape in Hr as [es [h [-> _]]]; [| assumption].
    apply A, mem_In, in_or_app. right. now left.
Qed.

Lemma label_rejects_hyphen_witness :
  is_valid_label no_unicode_variants (str_of "a-b") = false /\
  is_valid_label no_unicode_variants (str_of "a---ca978112") = false.
Proof.
  split.
  - apply (proj1 (label_rejects_hyphen no_unicode_lower no_unicode_variants)). reflexivity.
  - apply (proj1 (proj2 (label_rejects_hyphen no_unicode_lower no_unicode_variants))
             (str_of "a") 16).
    vm_compute. reflexivity.
Defined.

(** ** The dispatcher *)

Lemma contains_app_r (sub a b : str) :
  contains sub b = true -> contains sub (a ++ b) = true.
Proof.
  intros H. induction a as [| c a IH]; [assumption |].
  cbn [app contains]. rewrite IH. apply orb_true_r.
Qed.

Lemma shape_contains_pair (e h : str) :
  contains (str_of "--") (e ++ str_of "---" ++ h) = true.
Proof. apply contains_app_r. reflexivity. Qed.

Lemma safe_slug_dispatch (unicode_lower : str -> str) (name : str)
    (is_valid : str -> bool) (max_length : option Z) :
  safe_slug unicode_lower name is_valid max_length =
  if passes_through name is_valid max_length then Ok name
  else strip_and_hash unicode_lower name (or_default max_length 32).
Proof.
  unfold safe_slug, passes_through.
  destruct (contains (str_of "--") name); reflexivity.
Qed.

(** X5.  [safe_slug] raises [ValueError] exactly when the name is not passed
    through and [max_length or 32] is below 12: that is, only for a maximum
    length that is given, not zero and below 12.  It never does when no
    maximum length, or zero, is given. *)
Theorem safe_slug_value_error (unicode_lower : str -> str) (name : str)
    (is_valid : str -> bool) (max_length : option Z) :
  (safe_slug unicode_lower name is_valid max_length = Raise ValueError <->
   passes_through name is_valid max_length = false /\ or_default max_length 32 < 12) /\
  (max_length = None \/ max_length = Some 0 ->
   safe_slug unicode_lower name is_valid max_length <> Raise ValueError).
Proof.
  assert (A : safe_slug unicode_lower name is_valid max_length = Raise ValueError <->
              passes_through name is_valid max_length = false /\
              or_default max_length 32 < 12).
  { rewrite safe_slug_dispatch.
    destruct (passes_through name is_valid max_length).
    - split; [discriminate | intros [H _]; discriminate H].
    - destruct (strip_and_hash_cases unicode_lower name (or_default max_length 32))
        as [[HM H] | [[HM [_ H]] | [HM [_ [h [_ [_ H]]]]]]]; rewrite H;
        (split; [intros E | intros [_ E]]); try tauto; try discriminate; lia. }
  split; [exact A |].
  intros [-> | ->] E; apply A in E as [_ E]; cbn in E; lia.
Qed.

Lemma safe_slug_value_error_witness :
  safe_slug no_unicode_lower (str_of "jovyan") (is_valid_default no_unicode_variants) None
  <> Raise ValueError.
Proof.
  apply (proj2 (safe_slug_value_error no_unicode_lower (str_of "jovyan")
                  (is_valid_default no_unicode_variants) None)).
  left. reflexivity.
Defined.

(** X6.  Two calls of [safe_slug] that return the same slug were given the
    same name, or both names were hashed: a name that is passed through never
    meets a hashed slug, which always holds ["--"]. *)
Theorem safe_slug_collisions (unicode_lower : str -> str)
    (n1 n2 : str) (v1 v2 : str -> bool) (m1 m2 : option Z) (r : str) :
  safe_slug unicode_lower n1 v1 m1 = Ok r ->
  safe_slug unicode_lower n2 v2 m2 = Ok r ->
  n1 = n2 \/
  (contains (str_of "--") r = true /\
   strip_and_hash unicode_lower n1 (or_default m1 32) = Ok r /\
   strip_and_hash unicode_lower n2 (or_default m2 32) = Ok r).
Proof.
  intros H1 H2.
  assert (P : forall n M, strip_and_hash unicode_lower n M = Ok r ->
                          contains (str_of "--") r = true).
  { intros n M H. apply strip_and_hash_shape in H as [e [h [-> _]]].
    apply shape_contains_pair. }
  apply safe_slug_cases in H1 as [[E1 [P1 _]] | H1];
    apply safe_slug_cases in H2 as [[E2 [P2 _]] | H2].
  - left. congruence.
  - apply P in H2. subst r. congruence.
  - apply P in H1. subst r. congruence.
  - right. eauto.
Qed.

Lemma safe_slug_collisions_witness :
  str_of "jovyan" = str_of "jovyan" \/
  (contains (str_of "--") (str_of "jovyan") = true /\
   strip_and_hash no_unicode_lower (str_of "jovyan") 32 = Ok (str_of "jovyan") /\
   strip_and_hash no_unicode_lower (str_of "jovyan") 32 = Ok (str_of "jovyan")).
Proof.
  apply (safe_slug_collisions no_unicode_lower (str_of "jovyan") (str_of "jovyan")
           (is_valid_default no_unicode_variants) (is_valid_default no_unicode_variants)
           None None); reflexivity.
Defined.

(** X7.  A slug returned by [strip_and_hash] reads back: the text before its
    first pair of hyphens is the safe name of the input, and what follows the
    three hyphens is the first eight hexadecimal digits of the SHA-256 of the
    UTF-8 bytes of the input. *)
Theorem strip_and_hash_reads_back (unicode_lower : str -> str)
    (name : str) (M : Z) (r : str) :
  strip_and_hash unicode_lower name M = Ok r ->
  before_pair r = _extract_safe_name unicode_lower name (M - 11) /\
  exists data, Utf8.encode name = Ok data /\
    r = before_pair r ++ str_of "---" ++ slice_to (Sha256.hexdigest data) 8.
Proof.
  unfold strip_and_hash, _hash_length.
  replace (M - (8 + 3)) with (M - 11) by lia.
  destruct (M - 11 <? 1) eqn:E; [discriminate |].
  destruct (Utf8.encode name) as [data |] eqn:Hd; [| discriminate].
  cbn [bind]. change (Sha256.update Sha256.new data) with data. intros [= <-].
  destruct (extract_safe_name_safe unicode_lower name (M - 11) ltac:(lia))
    as [[_ [_ [_ [Hend Hpair]]]] _].
  assert (B : before_pair (_extract_safe_name unicode_lower name (M - 11) ++ str_of "---" ++
                slice_to (Sha256.hexdigest data) 8)
              = _extract_safe_name unicode_lower name (M - 11)).
  { change (str_of "---" ++ ?x) with (str_of "--" ++ (str_of "-" ++ x)).
    now apply before_pair_app. }
  split; [exact B |].
  exists data. split; [reflexivity |]. symmetry.
  exact (f_equal (fun x => x ++ str_of "---" ++ slice_to (Sha256.hexdigest data) 8) B).
Qed.

Lemma strip_and_hash_reads_back_witness :
  before_pair (str_of "a---ca978112") = str_of "a".
Proof.
  rewrite (proj1 (strip_and_hash_reads_back no_unicode_lower (str_of "a") 16
                    (str_of "a---ca978112") ltac:(vm_compute; reflexivity))).
  reflexivity.
Defined.

(** ** The structure of a slug of several components *)

Lemma joined_split (e : str) (rest : list str) (h : str) :
  join (str_of "--") (e :: rest) ++ str_of "---" ++ h =
  e ++ str_of "--" ++ after_first rest h.
Proof.
  destruct rest as [| e2 rest']; [reflexivity |].
  change (join (str_of "--") (e :: e2 :: rest'))
    with (e ++ str_of "--" ++ join (str_of "--") (e2 :: rest')).
  now rewrite <- !app_assoc.
Qed.

Lemma after_first_head (rest : list str) (h : str) :
  (forall e, In e rest -> safe_name e) ->
  head_hyphen (after_first rest h) = nilb rest.
Proof.
  destruct rest as [| e2 rest']; intros H; [reflexivity |].
  destruct (H e2 (or_introl eq_refl)) as [Hne [_ [Hstart _]]].
  destruct (join_head (str_of "--") e2 rest') as [w Ew].
  unfold after_first. rewrite Ew, <- app_assoc, head_hyphen_app by assumption.
  now rewrite <- startswith_hyphen.
Qed.

(** Two slugs of the shape [e1--...--ek---h], built from safe names, are equal
    only if their components and their suffixes are. *)
Lemma joined_injective (es es' : list str) (h h' : str) :
  es <> [] -> es' <> [] ->
  (forall e, In e es -> safe_name e) ->
  (forall e, In e es' -> safe_name e) ->
  join (str_of "--") es ++ str_of "---" ++ h =
  join (str_of "--") es' ++ str_of "---" ++ h' ->
  es = es' /\ h = h'.
Proof.
  revert es'. induction es as [| e rest IH]; intros es' Hne Hne' Hs Hs' E; [tauto |].
  destruct es' as [| e' rest']; [tauto |].
  rewrite !joined_split in E.
  destruct (Hs e (or_introl eq_refl)) as [_ [_ [_ [Hend Hpair]]]].
  destruct (Hs' e' (or_introl eq_refl)) as [_ [_ [_ [Hend' Hpair']]]].
  pose proof (f_equal before_pair E) as B.
  rewrite !before_pair_app in B by assumption. subst e'.
  apply app_inv_head, app_inv_head in E.
  assert (Hr : forall x, In x rest -> safe_name x) by (intros; apply Hs; now right).
  assert (Hr' : forall x, In x rest' -> safe_name x) by (intros; apply Hs'; now right).
  pose proof (f_equal head_hyphen E) as Hh.
  rewrite !after_first_head in Hh by assumption.
  destruct rest as [| e2 rest2], rest' as [| e2' rest2']; try discriminate Hh.
  - injection E as ->. split; reflexivity.
  - destruct (IH (e2' :: rest2') ltac:(discriminate) ltac:(discriminate) Hr Hr' E)
      as [-> ->].
    split; reflexivity.
Qed.

Lemma count_triple_skip (e t : str) :
  contains (str_of "--") e = false ->
  endswith (str_of "-") e = false ->
  head_hyphen t = false ->
  count_sub (str_of "---") (e ++ str_of "--" ++ t) = count_sub (str_of "---") t.
Proof.
  intros Hp He Ht. induction e as [| c k IH].
  - change (str_of "---") with [45; 45; 45]. change (str_of "--") with [45; 45].
    destruct t as [| x t']; [reflexivity |].
    simpl in Ht. cbn [app count_sub prefixb].
    rewrite (Z.eqb_sym 45 x), Ht. cbn [andb Z.eqb Pos.eqb]. reflexivity.
  - destruct (tail_no_pair c k Hp He) as [Hp' [He' Hc]].
    specialize (IH Hp' He').
    change (count_sub (str_of "---") ((c :: k) ++ str_of "--" ++ t))
      with ((if prefixb (str_of "---") (c :: k ++ str_of "--" ++ t) then 1 else 0)
            + count_sub (str_of "---") (k ++ str_of "--" ++ t))%nat.
    rewrite IH.
    enough (E : prefixb (str_of "---") (c :: k ++ str_of "--" ++ t) = false)
      by now rewrite E.
    change (str_of "---") with [45; 45; 45].
    cbn [prefixb]. rewrite (Z.eqb_sym 45 c).
    destruct (c =? 45) eqn:Ec; [| reflexivity].
    destruct (Hc eq_refl) as [Hne Hhd].
    destruct k as [| d k']; [tauto |].
    simpl in Hhd. cbn [app prefixb]. now rewrite (Z.eqb_sym 45 d), Hhd.
Qed.

Lemma runs_skip (e t : str) (k : nat) :
  contains (str_of "--") e = false ->
  endswith (str_of "-") e = false ->
  head_hyphen t = false ->
  (k <= 1)%nat ->
  (k = 1%nat -> e <> [] /\ head_hyphen e = false) ->
  filter (fun n => Nat.leb 2 n) (hyphen_runs_from k (e ++ str_of "--" ++ t)) =
  2%nat :: filter (fun n => Nat.leb 2 n) (hyphen_runs_from 0 t).
Proof.
  intros Hp He Ht. revert k. induction e as [| c u IH]; intros k Hk Hk1.
  - assert (k = 0%nat) as -> by (destruct k as [| [| ?]]; [reflexivity | | lia];
                                 destruct (Hk1 eq_refl); tauto).
    change (str_of "--") with [45; 45].
    cbn [app hyphen_runs_from Z.eqb Pos.eqb].
    destruct t as [| x t']; [reflexivity |].
    simpl in Ht. cbn [hyphen_runs_from]. rewrite Ht. reflexivity.
  - destruct (tail_no_pair c u Hp He) as [Hp' [He' Hc]].
    cbn [app hyphen_runs_from].
    destruct (c =? 45) eqn:Ec.
    + assert (k = 0%nat) as ->.
      { destruct k as [| [| ?]]; [reflexivity | | lia].
        destruct (Hk1 eq_refl) as [_ Hd]. simpl in Hd. congruence. }
      apply IH; [assumption | assumption | lia | intros _; now apply Hc].
    + rewrite filter_app.
      rewrite (IH Hp' He' 0%nat) by (lia || discriminate).
      destruct k as [| [| ?]]; [reflexivity | reflexivity | lia].
Qed.

Lemma joined_hyphens (es : list str) (h : str) :
  es <> [] ->
  (forall e, In e es -> safe_name e) ->
  forallb hex_char h = true ->
  count_sub (str_of "---") (join (str_of "--") es ++ str_of "---" ++ h) = 1%nat /\
  long_runs (join (str_of "--") es ++ str_of "---" ++ h) =
  repeat 2%nat (List.length es - 1) ++ [3%nat].
Proof.
  intros Hne Hs Hh. induction es as [| e rest IH]; [tauto |].
  destruct (Hs e (or_introl eq_refl)) as [_ [_ [_ [Hend Hpair]]]].
  destruct rest as [| e2 rest'].
  - cbn [join]. split; [now apply shape_one_triple |].
    apply shape_runs; [assumption | assumption | assumption | lia | discriminate].
  - assert (Hr : forall x, In x (e2 :: rest') -> safe_name x)
      by (intros; apply Hs; now right).
    destruct (IH ltac:(discriminate) Hr) as [IHc IHr].
    rewrite joined_split.
    pose proof (after_first_head (e2 :: rest') h Hr) as Hhead.
    unfold after_first in *. split.
    + rewrite count_triple_skip by assumption. exact IHc.
    + unfold long_runs, hyphen_runs in *.
      rewrite runs_skip by (assumption || lia || discriminate).
      rewrite IHr.
      replace (List.length (e :: e2 :: rest') - 1)%nat
        with (S (List.length (e2 :: rest') - 1)) by (cbn [List.length]; lia).
      reflexivity.
Qed.

Lemma joined_len (es : list str) (b : Z) :
  es <> [] ->
  (forall e, In e es -> len e <= b) ->
  len (join (str_of "--") es) <= len es * (b + 2) - 2.
Proof.
  intros Hne Hb. induction es as [| e rest IH]; [tauto |].
  destruct rest as [| e2 rest'].
  - cbn [join]. specialize (Hb e (or_introl eq_refl)).
    change (len [e]) with 1. lia.
  - change (join (str_of "--") (e :: e2 :: rest'))
      with (e ++ str_of "--" ++ join (str_of "--") (e2 :: rest')).
    specialize (IH ltac:(discriminate) ltac:(intros; apply Hb; now right)).
    specialize (Hb e (or_introl eq_refl)).
    assert (L : len (e :: e2 :: rest') = len (e2 :: rest') + 1)
      by (unfold len; cbn [List.length]; lia).
    rewrite L, Z.mul_add_distr_r.
    assert (A : len (e ++ str_of "--" ++ join (str_of "--") (e2 :: rest')) =
                len e + 2 + len (join (str_of "--") (e2 :: rest'))).
    { unfold len. rewrite !length_app.
      change (List.length (str_of "--")) with 2%nat. lia. }
    rewrite A. lia.
Qed.

Lemma last_char_in_app (f : char -> bool) (a b : str) :
  b <> [] -> last_char_in f (a ++ b) = last_char_in f b.
Proof.
  intros Hb. unfold last_char_in. rewrite rev_app_distr.
  destruct (rev b) as [| x l] eqn:E; [| reflexivity].
  apply (f_equal (@rev char)) in E. rewrite rev_involutive in E. now subst b.
Qed.

Lemma last_char_in_all (f : char -> bool) (s : str) :
  s <> [] -> forallb f s = true -> last_char_in f s = true.
Proof.
  intros Hs H. unfold last_char_in.
  destruct (rev s) as [| x l] eqn:E.
  - apply (f_equal (@rev char)) in E. rewrite rev_involutive in E. now subst s.
  - rewrite forallb_forall in H. apply H, in_rev. rewrite E. now left.
Qed.

Section Joined.

Variable unicode_lower : str -> str.

(** [multi_slug], when it returns, with the components it extracted. *)
Lemma multi_slug_result (ns : list str) (M : Z) (r : str) :
  multi_slug unicode_lower ns M = Ok r ->
  ns <> [] /\ 2 <= name_budget ns M /\
  exists h, List.length h = 8%nat /\ forallb hex_char h = true /\
    r = join (str_of "--")
          (map (fun name => _extract_safe_name unicode_lower name (name_budget ns M)) ns)
        ++ str_of "---" ++ h.
Proof.
  intros Hr.
  assert (Hne : ns <> []) by (intros ->; discriminate Hr).
  destruct (multi_slug_cases unicode_lower ns M Hne)
    as [[_ H] | [[_ [_ H]] | [_ [HM [h [Hlen [Hhex H]]]]]]]; [congruence | congruence |].
  rewrite H in Hr. injection Hr as <-. eauto 8.
Qed.

Lemma extracted_safe (ns : list str) (b : Z) :
  1 <= b ->
  forall e, In e (map (fun name => _extract_safe_name unicode_lower name b) ns) ->
            safe_name e /\ len e <= b.
Proof.
  intros Hb e He. apply in_map_iff in He as [name [<- _]].
  now apply extract_safe_name_safe.
Qed.

Lemma map_nonempty {A B : Type} (f : A -> B) (l : list A) : l <> [] -> map f l <> [].
Proof. destruct l; [tauto | discriminate]. Qed.

End Joined.

(** X8.  Two calls of [multi_slug] that return the same slug had the same
    number of components, and component by component the same safe names. *)
Theorem multi_slug_components (unicode_lower : str -> str)
    (ns ns' : list str) (M M' : Z) (r : str) :
  multi_slug unicode_lower ns M = Ok r ->
  multi_slug unicode_lower ns' M' = Ok r ->
  List.length ns = List.length ns' /\
  map (fun name => _extract_safe_name unicode_lower name (name_budget ns M)) ns =
  map (fun name => _extract_safe_name unicode_lower name (name_budget ns' M')) ns'.
Proof.
  intros H H'.
  apply multi_slug_result in H as [Hne [Hb [h [_ [_ E]]]]].
  apply multi_slug_result in H' as [Hne' [Hb' [h' [_ [_ E']]]]].
  rewrite E in E'.
  apply joined_injective in E' as [Em _].
  - split; [| exact Em].
    apply (f_equal (@List.length str)) in Em. now rewrite !length_map in Em.
  - now apply map_nonempty.
  - now apply map_nonempty.
  - intros e He. apply (extracted_safe unicode_lower ns (name_budget ns M)); [lia | exact He].
  - intros e He. apply (extracted_safe unicode_lower ns' (name_budget ns' M')); [lia | exact He].
Qed.

Lemma multi_slug_components_witness :
  map (fun name => _extract_safe_name no_unicode_lower name
                     (name_budget [str_of "User"; str_of "Srv"] 48))
      [str_of "User"; str_of "Srv"] =
  map (fun name => _extract_safe_name no_unicode_lower name
                     (name_budget [str_of "User"; str_of "Srv"] 30))
      [str_of "User"; str_of "Srv"].
Proof.
  eapply (proj2 (multi_slug_components no_unicode_lower
                   [str_of "User"; str_of "Srv"] [str_of "User"; str_of "Srv"] 48 30 _ _ _)).
  Unshelve.
  - exact (str_of "user--srv---fe015cbf").
  - vm_compute. reflexivity.
  - vm_compute. reflexivity.
Defined.

Lemma multi_slug_len (unicode_lower : str -> str)
    (ns : list str) (M : Z) (r : str) :
  multi_slug unicode_lower ns M = Ok r -> len r <= M.
Proof.
  intros H.
  apply multi_slug_result in H as [Hne [Hb [h [Hlen [_ ->]]]]].
  rewrite shape_len by assumption.
  set (es := map _ ns).
  assert (L : len (join (str_of "--") es) <= len es * (name_budget ns M + 2) - 2).
  { apply joined_len; [now apply map_nonempty |].
    intros e He. apply (extracted_safe unicode_lower ns (name_budget ns M)); [lia | exact He]. }
  assert (K : len es = len ns) by (unfold len, es; now rewrite length_map).
  rewrite K in L. unfold name_budget in *.
  assert (0 < len ns) by (destruct ns; [tauto | unfold len; cbn [List.length]; lia]).
  pose proof (Z.mul_div_le (M - 9) (len ns) ltac:(lia)).
  replace ((M - 9) / len ns - 2 + 2) with ((M - 9) / len ns) in L by lia.
  lia.
Qed.

(** X9.  A slug returned by [multi_slug] is at most [max_length] characters
    long. *)
Theorem multi_slug_length (unicode_lower : str -> str)
    (ns : list str) (M : Z) (r : str) :
  multi_slug unicode_lower ns M = Ok r -> len r <= M.
Proof. apply multi_slug_len. Qed.

Lemma multi_slug_length_witness :
  exists r, multi_slug no_unicode_lower
              [str_of "A Rather Long User Name"; str_of "server-one"] 24 = Ok r /\
            len r <= 24.
Proof.
  eexists. split; [vm_compute; reflexivity |].
  apply (multi_slug_length no_unicode_lower
           [str_of "A Rather Long User Name"; str_of "server-one"] 24).
  vm_compute. reflexivity.
Defined.

(** X10.  In a slug returned by [multi_slug] for [k] components the runs of
    two or more hyphens are, left to right, [k - 1] pairs and then one run of
    three; so ["---"] occurs at exactly one position. *)
Theorem multi_slug_hyphens (unicode_lower : str -> str)
    (ns : list str) (M : Z) (r : str) :
  multi_slug unicode_lower ns M = Ok r ->
  count_sub (str_of "---") r = 1%nat /\
  long_runs r = repeat 2%nat (List.length ns - 1) ++ [3%nat].
Proof.
  intros H.
  apply multi_slug_result in H as [Hne [Hb [h [Hlen [Hhex ->]]]]].
  rewrite <- (length_map
                (fun name => _extract_safe_name unicode_lower name (name_budget ns M)) ns).
  apply joined_hyphens; [now apply map_nonempty | | assumption].
  intros e He. apply (extracted_safe unicode_lower ns (name_budget ns M)); [lia | exact He].
Qed.

Lemma multi_slug_hyphens_witness :
  exists r, multi_slug no_unicode_lower [str_of "a-b"; str_of "--c"; str_of "d--"] 48 = Ok r /\
            count_sub (str_of "---") r = 1%nat /\
            long_runs r = [2%nat; 2%nat; 3%nat].
Proof.
  eexists. split; [vm_compute; reflexivity |].
  apply (multi_slug_hyphens no_unicode_lower [str_of "a-b"; str_of "--c"; str_of "d--"] 48).
  vm_compute. reflexivity.
Defined.

(** The start, the end and the characters of a slug [e1--...--ek---h]. *)
Lemma joined_strict (es : list str) (h : str) :
  es <> [] ->
  (forall e, In e es -> safe_name e) ->
  List.length h = 8%nat -> forallb hex_char h = true ->
  let r := join (str_of "--") es ++ str_of "---" ++ h in
  1 <= len r /\
  first_char_in alnum_lower_char r = true /\
  last_char_in alnum_lower_char r = true /\
  forallb object_char r = true.
Proof.
  intros Hne Hs Hlen Hhex r.
  assert (Hh : h <> []) by (intros ->; discriminate Hlen).
  assert (Hchars : forallb slug_char r = true).
  { apply shape_slug_chars; [| assumption].
    apply join_slug_chars. intros p Hp. now apply Hs. }
  destruct es as [| e rest]; [tauto |].
  destruct (Hs e (or_introl eq_refl)) as [He [Hc [Hstart _]]].
  destruct (join_head (str_of "--") e rest) as [w Ew].
  destruct e as [| c e']; [tauto |].
  repeat split.
  - subst r. rewrite Ew. unfold len. cbn [app List.length]. lia.
  - subst r. rewrite Ew. cbn [app first_char_in].
    rewrite startswith_hyphen in Hstart. cbn in Hstart, Hc.
    apply andb_true_iff in Hc as [Hc _].
    unfold slug_char in Hc. unfold alnum_lower_char. lia.
  - subst r. rewrite !last_char_in_app;
      [| assumption | intros E; apply app_eq_nil in E; tauto].
    apply last_char_in_all; [assumption |].
    apply forallb_forall. intros x Hx. rewrite forallb_forall in Hhex.
    auto using hex_is_alnum_lower.
  - apply forallb_forall. intros x Hx. rewrite forallb_forall in Hchars.
    unfold object_char. now rewrite (Hchars x Hx).
Qed.

(** X11.  A slug that [strip_and_hash] or [multi_slug] returns for a maximum
    length of at most 255 satisfies [is_valid_object_name], and for a maximum
    length of at most 63 it satisfies [is_valid_default] too. *)
Theorem hashed_slugs_are_valid (unicode_lower : str -> str)
    (unicode_variants : char -> list char) :
  (forall name M r,
      strip_and_hash unicode_lower name M = Ok r ->
      (M <= 255 -> is_valid_object_name unicode_variants r = true) /\
      (M <= 63 -> is_valid_default unicode_variants r = true)) /\
  (forall ns M r,
      multi_slug unicode_lower ns M = Ok r ->
      (M <= 255 -> is_valid_object_name unicode_variants r = true) /\
      (M <= 63 -> is_valid_default unicode_variants r = true)).
Proof.
  assert (A : forall es h M,
             es <> [] -> (forall e, In e es -> safe_name e) ->
             List.length h = 8%nat -> forallb hex_char h = true ->
             len (join (str_of "--") es ++ str_of "---" ++ h) <= M ->
             (M <= 255 ->
              is_valid_object_name unicode_variants
                (join (str_of "--") es ++ str_of "---" ++ h) = true) /\
             (M <= 63 ->
              is_valid_default unicode_variants
                (join (str_of "--") es ++ str_of "---" ++ h) = true)).
  { intros es h M Hne Hs Hlen Hhex HM.
    rewrite is_valid_object_name_in_full, is_valid_default_in_full.
    destruct (joined_strict es h Hne Hs Hlen Hhex) as [H1 [-> [-> ->]]].
    apply Z.leb_le in H1. rewrite H1.
    split; intros Hle; cbn [andb]; rewrite !andb_true_r; apply Z.leb_le; lia. }
  split.
  - intros name M r Hr.
    apply strip_and_hash_shape in Hr as [e [h [-> [Hsafe [Hle [Hlen Hhex]]]]]].
    apply (A [e] h M); try assumption; [discriminate | intros x [<- | []]; assumption |].
    cbn [join]. rewrite shape_len by assumption. lia.
  - intros ns M r Hr.
    pose proof (multi_slug_len unicode_lower ns M r Hr) as HM.
    apply multi_slug_result in Hr as [Hne [Hb [h [Hlen [Hhex ->]]]]].
    apply A; try assumption; [now apply map_nonempty |].
    intros e He. apply (extracted_safe unicode_lower ns (name_budget ns M)); [lia | exact He].
Qed.

Lemma hashed_slugs_are_valid_witness :
  exists r, multi_slug no_unicode_lower [str_of "Jo Ann"; str_of "GPU_box"] 48 = Ok r /\
            is_valid_object_name no_unicode_variants r = true /\
            is_valid_default no_unicode_variants r = true.
Proof.
  eexists. split; [vm_compute; reflexivity |].
  destruct (proj2 (hashed_slugs_are_valid no_unicode_lower no_unicode_variants)
              [str_of "Jo Ann"; str_of "GPU_box"] 48 _ ltac:(vm_compute; reflexivity))
    as [H1 H2].
  split; [apply H1 | apply H2]; lia.
Defined.

(** X12.  With a single component and a maximum length of at least 13,
    [multi_slug] is [strip_and_hash]; at 12 it raises [ValueError] where
    [strip_and_hash] still returns a slug. *)
Theorem multi_slug_single (unicode_lower : str -> str) (name : str) :
  (forall M, 13 <= M ->
             multi_slug unicode_lower [name] M = strip_and_hash unicode_lower name M) /\
  (Utf8.encodable name = true ->
   multi_slug unicode_lower [name] 12 = Raise ValueError /\
   exists r, strip_and_hash unicode_lower name 12 = Ok r).
Proof.
  split.
  - intros M HM. unfold multi_slug, strip_and_hash, _hash_length.
    change (len [name]) with 1. rewrite Z.div_1_r.
    assert ((M - (8 + 1) - 2 <? 2) = false) as -> by lia.
    assert ((M - (8 + 3) <? 1) = false) as -> by lia.
    replace (M - (8 + 1) - 2) with (M - (8 + 3)) by lia.
    destruct (Utf8.encode name); reflexivity.
  - intros He.
    destruct (encode_cases name) as [[_ [b Hb]] | [Hf _]]; [| congruence].
    unfold multi_slug, strip_and_hash. rewrite Hb. split; [reflexivity |].
    cbn [bind]. eexists. reflexivity.
Qed.

Lemma multi_slug_single_witness :
  multi_slug no_unicode_lower [str_of "a"] 13 = strip_and_hash no_unicode_lower (str_of "a") 13 /\
  multi_slug no_unicode_lower [str_of "a"] 12 = Raise ValueError.
Proof.
  destruct (multi_slug_single no_unicode_lower (str_of "a")) as [H1 H2].
  split; [apply H1; lia | apply H2; reflexivity].
Defined.

(** X13.  On UTF-8-encodable components, [multi_slug] raises [ValueError]
    exactly when [max_length < 4 * len(names) + 9]: each component needs four
    characters, two of its own and two hyphens, and the hash needs nine.
    With the default maximum length of 48 that is from ten components on. *)
Theorem multi_slug_room (unicode_lower : str -> str) (ns : list str) (M : Z) :
  ns <> [] ->
  forallb Utf8.encodable ns = true ->
  (multi_slug unicode_lower ns M = Raise ValueError <-> M < 4 * len ns + 9) /\
  (multi_slug unicode_lower ns multi_slug_default_max_length = Raise ValueError <->
   10 <= len ns).
Proof.
  intros Hne Henc.
  assert (Hk : 0 < len ns) by (destruct ns; [tauto | unfold len; cbn [List.length]; lia]).
  assert (A : forall M',
             multi_slug unicode_lower ns M' = Raise ValueError <-> M' < 4 * len ns + 9).
  { intros M'.
    assert (B : name_budget ns M' < 2 <-> M' < 4 * len ns + 9).
    { unfold name_budget. split; intros H.
      - destruct (Z_lt_dec M' (4 * len ns + 9)) as [? | Hge]; [assumption |].
        assert (4 <= (M' - 9) / len ns) by (apply Z.div_le_lower_bound; lia). lia.
      - assert ((M' - 9) / len ns < 4) by (apply Z.div_lt_upper_bound; lia). lia. }
    destruct (multi_slug_cases unicode_lower ns M' Hne)
      as [[Hf _] | [[_ [HM H]] | [_ [HM [h [_ [_ H]]]]]]]; [congruence | |]; rewrite H.
    - split; [intros _; now apply B | reflexivity].
    - split; [discriminate | intros Hlt; apply B in Hlt; lia]. }
  split; [apply A |].
  rewrite A. unfold multi_slug_default_max_length. lia.
Qed.

Lemma multi_slug_room_witness :
  (multi_slug no_unicode_lower [str_of "a"; str_of "b"] 16 = Raise ValueError <->
   16 < 4 * len [str_of "a"; str_of "b"] + 9).
Proof.
  apply (multi_slug_room no_unicode_lower [str_of "a"; str_of "b"] 16);
    [discriminate | reflexivity].
Defined.

(** ** More on the extractor *)

Lemma slug_chars_ascii (s : str) : forallb slug_char s = true -> isascii s = true.
Proof.
  intros H. apply forallb_forall. intros c Hc.
  rewrite forallb_forall in H. specialize (H c Hc). unfold slug_char in H. lia.
Qed.

Lemma slug_chars_lower (s : str) : forallb slug_char s = true -> map ascii_lower s = s.
Proof.
  induction s as [| c t IH]; intros H; [reflexivity |].
  cbn [forallb map] in *. apply andb_true_iff in H as [Hc Ht].
  rewrite (IH Ht). f_equal. unfold ascii_lower.
  assert ((65 <=? c) && (c <=? 90) = false) as -> by (unfold slug_char in Hc; lia).
  reflexivity.
Qed.

Lemma filter_all (f : char -> bool) (s : str) : forallb f s = true -> filter f s = s.
Proof.
  induction s as [| c t IH]; intros H; [reflexivity |].
  cbn [forallb filter] in *. apply andb_true_iff in H as [Hc Ht].
  now rewrite Hc, (IH Ht).
Qed.

Lemma lstrip_id (s : str) : head_hyphen s = false -> lstrip (str_of "-") s = s.
Proof.
  destruct s as [| c t]; [reflexivity |]. cbn [head_hyphen lstrip].
  rewrite mem_hyphen. now intros ->.
Qed.

Lemma hyphen_plus_sub_id (s : str) :
  contains (str_of "--") s = false -> hyphen_plus_sub false s = s.
Proof.
  induction s as [| c t IH]; intros H; [reflexivity |].
  rewrite contains_pair_cons in H. apply orb_false_iff in H as [Hc Ht].
  cbn [hyphen_plus_sub]. rewrite (IH Ht).
  destruct (c =? 45); [| reflexivity].
  destruct t as [| d t']; [reflexivity |].
  cbn [andb head_hyphen] in Hc. now rewrite Hc.
Qed.

Lemma rstrip_id (s : str) :
  endswith (str_of "-") s = false -> rstrip (str_of "-") s = s.
Proof.
  induction s as [| c t IH]; intros H; [reflexivity |].
  rewrite endswith_cons in H. cbn [rstrip].
  destruct t as [| d t'].
  - cbn [nilb rstrip] in *. now rewrite H.
  - cbn [nilb] in H. rewrite (IH H). cbn [nilb]. now rewrite andb_false_r.
Qed.

Lemma slice_to_all (s : str) (n : Z) : len s <= n -> slice_to s n = s.
Proof.
  intros H. unfold slice_to, len in *.
  assert ((n <? 0) = false) as -> by lia.
  apply firstn_all2. lia.
Qed.

Section ExtractorMore.

Variable unicode_lower : str -> str.

Lemma extract_safe_name_any (name : str) (max_length : Z) :
  safe_name (_extract_safe_name unicode_lower name max_length).
Proof.
  unfold _extract_safe_name.
  set (s0 := filter _ (lower unicode_lower name)).
  set (s1 := lstrip (str_of "-") s0).
  set (s2 := hyphen_plus_sub false s1).
  set (s3 := slice_to s2 max_length).
  set (s4 := rstrip (str_of "-") s3).
  assert (F2 : forallb slug_char s2 = true)
    by apply hyphen_plus_sub_forallb, lstrip_forallb, filter_slug_chars.
  assert (H2 : head_hyphen s2 = false)
    by apply hyphen_plus_sub_head_false, lstrip_head.
  assert (P2 : contains (str_of "--") s2 = false)
    by apply hyphen_plus_sub_no_pair.
  destruct (slice_to_prefix s2 max_length) as [t3 E3]. fold s3 in E3.
  destruct (rstrip_prefix (str_of "-") s3) as [t4 E4]. fold s4 in E4.
  destruct (nilb s4) eqn:Enil; [apply x_is_safe |].
  rewrite E3, E4 in F2, H2, P2.
  repeat split.
  - intros Hnil. now rewrite Hnil in Enil.
  - eapply forallb_prefix, forallb_prefix, F2.
  - rewrite startswith_hyphen.
    eapply head_hyphen_prefix, head_hyphen_prefix, H2.
  - apply rstrip_endswith.
  - eapply contains_pair_prefix, contains_pair_prefix, P2.
Qed.

Lemma extract_safe_name_fixed (e : str) (max_length : Z) :
  safe_name e -> len e <= max_length ->
  _extract_safe_name unicode_lower e max_length = e.
Proof.
  intros [Hne [Hchars [Hstart [Hend Hpair]]]] Hlen.
  unfold _extract_safe_name, lower.
  rewrite (slug_chars_ascii e Hchars), (slug_chars_lower e Hchars).
  rewrite filter_all
    by (rewrite (forallb_pointwise _ slug_char e mem_lower_plus_hyphen); exact Hchars).
  rewrite startswith_hyphen in Hstart.
  rewrite (lstrip_id e Hstart), (hyphen_plus_sub_id e Hpair).
  rewrite (slice_to_all e max_length Hlen), (rstrip_id e Hend).
  destruct e; [tauto | reflexivity].
Qed.

End ExtractorMore.

(** X14.  [_extract_safe_name] leaves alone every string that already is a
    safe name within the maximum length; so extracting twice with the same
    maximum length gives what extracting once gives. *)
Theorem extract_safe_name_idempotent (unicode_lower : str -> str) :
  (forall e max_length,
      safe_name e -> len e <= max_length ->
      _extract_safe_name unicode_lower e max_length = e) /\
  (forall name max_length,
      1 <= max_length ->
      _extract_safe_name unicode_lower
        (_extract_safe_name unicode_lower name max_length) max_length =
      _extract_safe_name unicode_lower name max_length).
Proof.
  split; [apply extract_safe_name_fixed |].
  intros name max_length H.
  destruct (extract_safe_name_safe unicode_lower name max_length H).
  now apply extract_safe_name_fixed.
Qed.

Lemma extract_safe_name_idempotent_witness :
  _extract_safe_name no_unicode_lower
    (_extract_safe_name no_unicode_lower (str_of "My--User_Name!!") 10) 10 =
  _extract_safe_name no_unicode_lower (str_of "My--User_Name!!") 10.
Proof.
  apply (proj2 (extract_safe_name_idempotent no_unicode_lower)). lia.
Defined.

(** X15.  Whatever the maximum length, also zero or negative,
    [_extract_safe_name] returns a safe name: not empty, only lowercase
    letters, digits and hyphens, no hyphen at either end, no two hyphens in a
    row.  With a maximum length of zero it returns ["x"], which is longer
    than asked. *)
Theorem extract_safe_name_any_length (unicode_lower : str -> str)
    (name : str) (max_length : Z) :
  safe_name (_extract_safe_name unicode_lower name max_length) /\
  _extract_safe_name unicode_lower name 0 = str_of "x".
Proof. split; [apply extract_safe_name_any | reflexivity]. Qed.

(** ** What is hashed *)

Lemma encode_char_inv (c : char) (b : list Z) :
  Utf8.encode_char c = Ok b ->
  0 <= c < 0x110000 /\
  ((c < 0x80 /\ b = [c]) \/
   (0x80 <= c < 0x800 /\ b = [0xC0 + c / 64; Utf8.cont c]) \/
   (0x800 <= c < 0x10000 /\ b = [0xE0 + c / 4096; Utf8.cont (c / 64); Utf8.cont c]) \/
   (0x10000 <= c /\
    b = [0xF0 + c / 262144; Utf8.cont (c / 4096); Utf8.cont (c / 64); Utf8.cont c])).
Proof.
  unfold Utf8.encode_char.
  destruct (Utf8.encodable_char c) eqn:He; cbn [negb]; [| discriminate].
  assert (0 <= c < 0x110000) by (unfold Utf8.encodable_char in He; lia).
  destruct (c <? 0x80) eqn:E1;
    [intros [= <-]; split; [assumption | left; split; [lia | reflexivity]] |].
  destruct (c <? 0x800) eqn:E2;
    [intros [= <-]; split; [assumption | right; left; split; [lia | reflexivity]] |].
  destruct (c <? 0x10000) eqn:E3; intros [= <-]; (split; [assumption |]).
  - right; right; left. split; [lia | reflexivity].
  - right; right; right. split; [lia | reflexivity].
Qed.

(** The first byte of a character is never [0xFF]. *)
Lemma encode_char_head (c : char) (b : list Z) :
  Utf8.encode_char c = Ok b -> exists x rest, b = x :: rest /\ x < 0xF8.
Proof.
  intros H. apply encode_char_inv in H as [Hc [[H ->] | [[H ->] | [[H ->] | [H ->]]]]];
    eexists _, _; (split; [reflexivity |]); try lia.
  - assert (c / 64 < 32) by (apply Z.div_lt_upper_bound; lia). lia.
  - assert (c / 4096 < 16) by (apply Z.div_lt_upper_bound; lia). lia.
  - assert (c / 262144 < 8) by (apply Z.div_lt_upper_bound; lia). lia.
Qed.

Lemma cons_inj (x y : Z) (l l' : list Z) : x :: l = y :: l' -> x = y /\ l = l'.
Proof. intros [= -> ->]. split; reflexivity. Qed.

Lemma split_bytes (c : Z) :
  c = 64 * (c / 64) + c mod 64 /\
  c = 4096 * (c / 4096) + 64 * ((c / 64) mod 64) + c mod 64 /\
  c = 262144 * (c / 262144) + 4096 * ((c / 4096) mod 64) + 64 * ((c / 64) mod 64) + c mod 64.
Proof.
  assert (A : forall x, x = 64 * (x / 64) + x mod 64)
    by (intros x; apply Z.div_mod; lia).
  assert (B : c / 4096 = c / 64 / 64) by (rewrite Z.div_div by lia; reflexivity).
  assert (C : c / 262144 = c / 4096 / 64) by (rewrite Z.div_div by lia; reflexivity).
  pose proof (A c) as A1. pose proof (A (c / 64)) as A2. pose proof (A (c / 4096)) as A3.
  rewrite <- B in A2. rewrite <- C in A3.
  repeat split; lia.
Qed.

(** The encoding of a character can be told from what follows it. *)
Lemma encode_char_injective (c c' : char) (b b' r r' : list Z) :
  Utf8.encode_char c = Ok b -> Utf8.encode_char c' = Ok b' ->
  b ++ r = b' ++ r' -> c = c' /\ r = r'.
Proof.
  intros H H' E.
  destruct (split_bytes c) as [S2 [S3 S4]].
  destruct (split_bytes c') as [S2' [S3' S4']].
  assert (c / 64 < 32 \/ 0x800 <= c) by
    (destruct (Z_lt_dec c 0x800); [left; apply Z.div_lt_upper_bound; lia | right; lia]).
  assert (c' / 64 < 32 \/ 0x800 <= c') by
    (destruct (Z_lt_dec c' 0x800); [left; apply Z.div_lt_upper_bound; lia | right; lia]).
  assert (c / 4096 < 16 \/ 0x10000 <= c) by
    (destruct (Z_lt_dec c 0x10000); [left; apply Z.div_lt_upper_bound; lia | right; lia]).
  assert (c' / 4096 < 16 \/ 0x10000 <= c') by
    (destruct (Z_lt_dec c' 0x10000); [left; apply Z.div_lt_upper_bound; lia | right; lia]).
  assert (P : forall x, 0 <= x -> 0 <= x / 64 /\ 0 <= x / 4096 /\ 0 <= x / 262144)
    by (intros x Hx; repeat split; apply Z.div_pos; lia).
  pose proof (Z.mod_pos_bound c 64 ltac:(lia)).
  pose proof (Z.mod_pos_bound c' 64 ltac:(lia)).
  pose proof (Z.mod_pos_bound (c / 64) 64 ltac:(lia)).
  pose proof (Z.mod_pos_bound (c' / 64) 64 ltac:(lia)).
  pose proof (Z.mod_pos_bound (c / 4096) 64 ltac:(lia)).
  pose proof (Z.mod_pos_bound (c' / 4096) 64 ltac:(lia)).
  apply encode_char_inv in H as [Hc [[H ->] | [[H ->] | [[H ->] | [H ->]]]]];
    apply encode_char_inv in H' as [Hc' [[H' ->] | [[H' ->] | [[H' ->] | [H' ->]]]]];
    pose proof (P c ltac:(lia)); pose proof (P c' ltac:(lia));
    cbn [app] in E; repeat (apply cons_inj in E as [? E]); unfold Utf8.cont in *;
    (split; [lia | assumption || (exfalso; lia)]).
Qed.

Lemma encode_cons_inv (c : char) (u : str) (b : list Z) :
  Utf8.encode (c :: u) = Ok b ->
  exists bc bu, Utf8.encode_char c = Ok bc /\ Utf8.encode u = Ok bu /\ b = bc ++ bu.
Proof.
  cbn [Utf8.encode]. destruct (Utf8.encode_char c) as [bc |]; [| discriminate].
  cbn [bind]. destruct (Utf8.encode u) as [bu |]; [| discriminate].
  cbn [bind]. intros [= <-]. eauto.
Qed.

Lemma encode_injective (s s' : str) (b b' t t' : list Z) :
  Utf8.encode s = Ok b -> Utf8.encode s' = Ok b' ->
  delimited t -> delimited t' ->
  b ++ t = b' ++ t' -> s = s' /\ t = t'.
Proof.
  revert s' b b'. induction s as [| c u IH]; intros s' b b' H H' Dt Dt' E.
  - injection H as <-. destruct s' as [| c' u'].
    + injection H' as <-. now split.
    + exfalso. apply encode_cons_inv in H' as [bc [bu [Hc [_ ->]]]].
      apply encode_char_head in Hc as [x [rest [-> Hx]]].
      cbn [app] in E. destruct Dt as [-> | [t0 ->]]; [discriminate |].
      injection E. lia.
  - apply encode_cons_inv in H as [bc [bu [Hc [Hu ->]]]].
    destruct s' as [| c' u'].
    + exfalso. injection H' as <-.
      apply encode_char_head in Hc as [x [rest [-> Hx]]].
      cbn [app] in E. destruct Dt' as [-> | [t0 ->]]; [discriminate |].
      injection E. lia.
    + apply encode_cons_inv in H' as [bc' [bu' [Hc' [Hu' ->]]]].
      rewrite <- !app_assoc in E.
      destruct (encode_char_injective c c' bc bc' _ _ Hc Hc' E) as [-> E2].
      destruct (IH u' bu bu' Hu Hu' Dt Dt' E2) as [-> ->].
      now split.
Qed.

Lemma update_rest_extends (ns : list str) (hasher x : Sha256.hasher) :
  update_rest hasher ns = Ok x ->
  exists t, x = hasher ++ t /\ delimited t /\ (ns <> [] -> t <> []).
Proof.
  revert hasher. induction ns as [| n rest IH]; intros hasher H.
  - injection H as <-. exists []. rewrite app_nil_r. repeat split; [now left | tauto].
  - cbn [update_rest] in H. destruct (Utf8.encode n) as [d |]; [| discriminate].
    cbn [bind] in H. apply IH in H as [t [-> _]].
    unfold Sha256.update. exists (0xFF :: d ++ t).
    rewrite <- !app_assoc. cbn [app].
    repeat split; [right; eauto | discriminate].
Qed.

Lemma update_rest_injective (ns ns' : list str) (hasher x : Sha256.hasher) :
  update_rest hasher ns = Ok x -> update_rest hasher ns' = Ok x -> ns = ns'.
Proof.
  revert ns' hasher. induction ns as [| n rest IH]; intros ns' hasher H H'.
  - injection H as <-. destruct ns' as [| n' rest']; [reflexivity |].
    apply update_rest_extends in H' as [t [E [_ Hne]]].
    rewrite <- (app_nil_r hasher) in E at 1. apply app_inv_head in E.
    symmetry in E. now apply Hne in E.
  - destruct ns' as [| n' rest'].
    + injection H' as <-.
      apply update_rest_extends in H as [t [E [_ Hne]]].
      rewrite <- (app_nil_r hasher) in E at 1. apply app_inv_head in E.
      symmetry in E. now apply Hne in E.
    + pose proof H as G. pose proof H' as G'.
      cbn [update_rest] in G, G'.
      destruct (Utf8.encode n) as [d |] eqn:Hd; [| discriminate].
      destruct (Utf8.encode n') as [d' |] eqn:Hd'; [| discriminate].
      cbn [bind] in G, G'.
      destruct (update_rest_extends _ _ _ G) as [t [E [Dt _]]].
      destruct (update_rest_extends _ _ _ G') as [t' [E' [Dt' _]]].
      rewrite E in E'. unfold Sha256.update in E'.
      rewrite <- !app_assoc in E'. apply app_inv_head in E'.
      cbn [app] in E'. injection E' as E'.
      destruct (encode_injective n n' d d' t t' Hd Hd' Dt Dt' E') as [-> _].
      rewrite Hd in Hd'. injection Hd' as <-.
      f_equal. exact (IH rest' _ G G').
Qed.

(** X16.  The bytes that are hashed tell the components apart: two component
    lists that feed the same bytes to the hash are the same list.  The suffix
    of a slug that [multi_slug] returns is the first eight hexadecimal digits
    of the SHA-256 of these bytes. *)
Theorem hash_input_injective (unicode_lower : str -> str) :
  (forall ns ns' b, hash_input ns = Ok b -> hash_input ns' = Ok b -> ns = ns') /\
  (forall ns M r,
      multi_slug unicode_lower ns M = Ok r ->
      exists b, hash_input ns = Ok b /\
        r = join (str_of "--")
              (map (fun name => _extract_safe_name unicode_lower name (name_budget ns M)) ns)
            ++ str_of "---" ++ slice_to (Sha256.hexdigest b) 8).
Proof.
  split.
  - intros ns ns' b H H'.
    destruct ns as [| n rest]; [discriminate |].
    destruct ns' as [| n' rest']; [discriminate |].
    cbn [hash_input] in H, H'.
    destruct (Utf8.encode n) as [d |] eqn:Hd; [| discriminate].
    destruct (Utf8.encode n') as [d' |] eqn:Hd'; [| discriminate].
    cbn [bind] in H, H'. unfold Sha256.update, Sha256.new in H, H'. cbn [app] in H, H'.
    destruct (update_rest_extends _ _ _ H) as [t [E [Dt _]]].
    destruct (update_rest_extends _ _ _ H') as [t' [E' [Dt' _]]].
    rewrite E in E'.
    destruct (encode_injective n n' d d' t t' Hd Hd' Dt Dt' E') as [-> _].
    rewrite Hd in Hd'. injection Hd' as <-.
    f_equal. exact (update_rest_injective rest rest' _ _ H H').
  - intros ns M r H.
    destruct ns as [| n rest]; [discriminate |].
    unfold multi_slug in H. cbn [hash_input].
    destruct (Utf8.encode n) as [d |]; [| discriminate].
    cbn [bind] in *.
    destruct (update_rest (Sha256.update Sha256.new d) rest) as [b |]; [| discriminate].
    cbn [bind] in H. exists b. split; [reflexivity |].
    unfold _hash_length in H. replace (M - (8 + 1)) with (M - 9) in H by lia.
    fold (name_budget (n :: rest) M) in H.
    destruct (name_budget (n :: rest) M <? 2); [discriminate |].
    now injection H as <-.
Qed.

Lemma hash_input_injective_witness :
  [str_of "ab"; str_of "c"] = [str_of "ab"; str_of "c"].
Proof.
  apply (proj1 (hash_input_injective no_unicode_lower) _ _
           [0x61; 0x62; 0xFF; 0x63]); reflexivity.
Defined.

(** The boundary between components is part of what is hashed. *)
Example hash_input_boundary :
  hash_input [str_of "ab"; str_of "c"] = Ok [0x61; 0x62; 0xFF; 0x63] /\
  hash_input [str_of "a"; str_of "bc"] = Ok [0x61; 0xFF; 0x62; 0x63].
Proof. split; reflexivity. Qed.

(** ** Shorter budgets give prefixes *)

Lemma prefixb_refl (s : str) : prefixb s s = true.
Proof. induction s as [| c t IH]; [reflexivity |]. cbn. now rewrite Z.eqb_refl. Qed.

Lemma rstrip_prefix_mono (chars p t : str) :
  prefixb (rstrip chars p) (rstrip chars (p ++ t)) = true.
Proof.
  induction p as [| c p IH]; [reflexivity |].
  cbn [app rstrip].
  destruct (mem c chars && nilb (rstrip chars p)) eqn:E1; [reflexivity |].
  destruct (mem c chars && nilb (rstrip chars (p ++ t))) eqn:E2.
  - apply andb_true_iff in E2 as [Hc Hn].
    destruct (rstrip chars (p ++ t)); [| discriminate].
    destruct (rstrip chars p); [| discriminate IH].
    now rewrite Hc in E1.
  - cbn [prefixb]. now rewrite Z.eqb_refl, IH.
Qed.

Lemma slice_to_mono (s : str) (n m : Z) :
  0 <= n <= m -> exists t, slice_to s m = slice_to s n ++ t.
Proof.
  intros H. unfold slice_to.
  assert ((n <? 0) = false) as -> by lia.
  assert ((m <? 0) = false) as -> by lia.
  exists (skipn (Z.to_nat n) (firstn (Z.to_nat m) s)).
  rewrite <- (firstn_skipn (Z.to_nat n) (firstn (Z.to_nat m) s)) at 1.
  f_equal. rewrite firstn_firstn. f_equal. lia.
Qed.

(** X17.  For maximum lengths [1 <= n <= m], the safe name extracted with
    [n] is a prefix of the safe name extracted with [m]. *)
Theorem extract_safe_name_prefix (unicode_lower : str -> str)
    (name : str) (n m : Z) :
  1 <= n <= m ->
  prefixb (_extract_safe_name unicode_lower name n)
          (_extract_safe_name unicode_lower name m) = true.
Proof.
  intros H. unfold _extract_safe_name.
  set (s2 := hyphen_plus_sub false _).
  assert (H2 : head_hyphen s2 = false)
    by apply hyphen_plus_sub_head_false, lstrip_head.
  destruct (slice_to_mono s2 n m ltac:(lia)) as [t Et].
  pose proof (rstrip_prefix_mono (str_of "-") (slice_to s2 n) t) as P.
  rewrite <- Et in P.
  destruct s2 as [| c s2'] eqn:E2.
  - unfold slice_to. assert ((n <? 0) = false) as -> by lia.
    assert ((m <? 0) = false) as -> by lia.
    rewrite !firstn_nil. reflexivity.
  - rewrite <- E2 in *.
    assert (N : forall k, 1 <= k -> nilb (rstrip (str_of "-") (slice_to s2 k)) = false).
    { intros k Hk.
      assert (Hs : slice_to s2 k <> [])
        by (apply slice_to_nonempty; [assumption | rewrite E2; discriminate]).
      destruct (slice_to_prefix s2 k) as [u Eu].
      assert (Hh : head_hyphen (slice_to s2 k) = false)
        by (apply (head_hyphen_prefix _ u); now rewrite <- Eu).
      pose proof (rstrip_nonempty _ Hs Hh).
      destruct (rstrip (str_of "-") (slice_to s2 k)); [tauto | reflexivity]. }
    rewrite !N by lia. exact P.
Qed.

Lemma extract_safe_name_prefix_witness :
  prefixb (_extract_safe_name no_unicode_lower (str_of "My--User_Name!!") 3)
          (_extract_safe_name no_unicode_lower (str_of "My--User_Name!!") 10) = true.
Proof.
  apply (extract_safe_name_prefix no_unicode_lower (str_of "My--User_Name!!") 3 10). lia.
Defined.
